(** * least-recent: a fixed-capacity LRU cache over preallocated arrays

    Shallow embedding of [src/get-pointer-array.ts] (the slot-width selector)
    and of the [LRUCache] class (constructor, [splayOnTop], [set], [setpop],
    [has], [get], [peek], [clear], the three iterators, [storeKeyValue] and the
    static [from]), followed by the properties of the specification.

    Conventions of the embedding.
    - A slot ("pointer") is a [nat].  [forward] and [backward] are typed
      arrays: fixed length, a store outside the bounds is dropped, a stored
      number is reduced modulo the element width.
    - [K] and [V] are ordinary JavaScript arrays created with holes; they are
      finite maps from index to element, a hole reading as [None]
      ([undefined]).
    - [items] is a plain object used as a dictionary: a finite map from
      property names (strings).  A key of type [string | number] reaches it
      through the property-name coercion [ToPropertyKey].  Only own properties
      are modelled; keys that name a member of [Object.prototype] are outside
      the embedding.
    - The emitter is a list of handlers called in subscription order; a
      handler either returns or throws. *)

From Stdlib Require Import ZArith QArith Qround Lia.
From stdpp Require Import base option list gmap strings pretty.

#[local] Open Scope Z_scope.

(** ** Completions: a call returns normally or throws *)

Inductive Error : Type :=
  | InvalidCapacityError     (* "Capacity should be a finite positive integer." *)
  | CapacityUnsupportedError (* "Pointer Array of size > 4294967295 is not supported." *)
  | RangeError               (* "Invalid array length", raised by [new Array(n)] *)
  | HandlerError (msg : string).

Inductive Completion (A : Type) : Type :=
  | Normal (a : A)
  | Throw (e : Error).
Arguments Normal {A} a.
Arguments Throw {A} e.

(** ** The slot-width selector, [get-pointer-array.ts] *)

Module PointerArray.

Definition MAX_8BIT_INTEGER : Z := 2 ^ 8 - 1.
Definition MAX_16BIT_INTEGER : Z := 2 ^ 16 - 1.
Definition MAX_32BIT_INTEGER : Z := 2 ^ 32 - 1.

Inductive Class : Type := Uint8Array | Uint16Array | Uint32Array.

Definition bits (cls : Class) : N :=
  match cls with
  | Uint8Array => 8
  | Uint16Array => 16
  | Uint32Array => 32
  end%N.

Definition getPointerArray (size : Z) : Completion Class :=
  let maxIndex := size - 1 in
  if maxIndex <=? MAX_8BIT_INTEGER then Normal Uint8Array
  else if maxIndex <=? MAX_16BIT_INTEGER then Normal Uint16Array
  else if maxIndex <=? MAX_32BIT_INTEGER then Normal Uint32Array
  else Throw CapacityUnsupportedError.

(** A typed array: its class and its elements. *)
Record t : Type := make { cls : Class; elems : list nat }.

(** Storing a number into an element keeps it modulo the element width. *)
Definition wrap (c : Class) (v : nat) : nat :=
  N.to_nat (N.of_nat v mod 2 ^ bits c)%N.

(** [new PointerArray(n)]: [n] zeroed elements. *)
Definition alloc (c : Class) (n : nat) : t :=
  {| cls := c; elems := replicate n 0%nat |}.

(** [a[i]] for an index inside the array.  Outside it JavaScript yields
    [undefined]; no operation of the cache reads there in a well-formed
    state (lemma [reads_in_bounds]), and the embedding reads [0]. *)
Definition read (a : t) (i : nat) : nat := default 0%nat (elems a !! i).

(** [a[i] = v]: dropped when [i] is outside the array. *)
Definition write (a : t) (i v : nat) : t :=
  {| cls := cls a; elems := <[i := wrap (cls a) v]> (elems a) |}.

End PointerArray.

(** ** JavaScript values as the constructor may receive them *)

Inductive JsNumber : Type :=
  | NaN
  | PosInfinity
  | NegInfinity
  | Finite (q : Q).

Inductive JsValue : Type :=
  | JsUndefined
  | JsNull
  | JsBoolean (b : bool)
  | JsNum (n : JsNumber)
  | JsString (s : string)
  | JsObject (primitive : JsNumber).  (* an object, with what [ToNumber] makes of it *)

(** Symbols and bigints, on which [isFinite] itself throws a [TypeError],
    are left out. *)

Section Coercions.

(** [StringToNumber] of the language ("12" is 12, "x" is NaN, ...); the
    constructor's answer does not depend on it. *)
Variable StringToNumber : string → JsNumber.

Definition ToNumber (v : JsValue) : JsNumber :=
  match v with
  | JsUndefined => NaN
  | JsNull => Finite 0
  | JsBoolean b => Finite (if b then 1 else 0)
  | JsNum n => n
  | JsString s => StringToNumber s
  | JsObject n => n
  end.

(** The global [isFinite]: coerces, then tests. *)
Definition isFinite (v : JsValue) : bool :=
  match ToNumber v with
  | Finite _ => true
  | _ => false
  end.

Definition Math_floor (v : JsValue) : JsNumber :=
  match ToNumber v with
  | Finite q => Finite (inject_Z (Qfloor q))
  | n => n
  end.

(** [n !== v] for a number [n]: values of different types are never
    strictly equal, and [NaN] is not equal to itself. *)
Definition strict_neq (n : JsNumber) (v : JsValue) : bool :=
  match v with
  | JsNum m =>
      match n, m with
      | Finite p, Finite q => negb (Qeq_bool p q)
      | PosInfinity, PosInfinity => false
      | NegInfinity, NegInfinity => false
      | _, _ => true
      end
  | _ => true
  end.

(** [v <= 0] *)
Definition le_zero (v : JsValue) : bool :=
  match ToNumber v with
  | Finite q => Qle_bool q 0
  | NegInfinity => true
  | _ => false
  end.

(** The guard of the constructor. *)
Definition invalid_capacity (capacity : JsValue) : bool :=
  negb (isFinite capacity)
  || strict_neq (Math_floor capacity) capacity
  || le_zero capacity.

(** The integer a capacity that passed the guard stands for. *)
Definition integer_of (capacity : JsValue) : Z :=
  match ToNumber capacity with
  | Finite q => Qfloor q
  | _ => 0
  end.

End Coercions.

(** ** Keys *)

(** [TKey extends string | number].  Number keys are the integer-valued ones,
    whose property name is their decimal numeral (the range in which
    [Number::toString] prints plain digits). *)
Inductive Key : Type :=
  | KStr (s : string)
  | KNum (n : Z).

#[global] Instance Key_eq_dec : EqDecision Key.
Proof. solve_decision. Defined.

(** The property name under which [items[key]] files a key. *)
Definition ToPropertyKey (k : Key) : string :=
  match k with
  | KStr s => s
  | KNum n => pretty n
  end.

(** The property name of what a cell of [K] holds; a hole is [undefined]. *)
Definition property_name (k : option Key) : string :=
  match k with
  | Some k => ToPropertyKey k
  | None => "undefined"
  end.

(** [if (oldKey)]: [undefined], the empty string and zero are falsy. *)
Definition truthy (k : option Key) : bool :=
  match k with
  | None => false
  | Some (KStr s) => negb (bool_decide (s = EmptyString))
  | Some (KNum n) => negb (n =? 0)
  end.

(** ** The cache *)

Module LRUCache.

Section WithValues.

Context {Val : Type}.
Variable StringToNumber : string → JsNumber.

(** An "evicted" listener: called with the cells [K[pointer]] and
    [V[pointer]], it returns or throws. *)
Definition Handler : Type := option Key → option Val → Completion unit.

Record Cache : Type := mkCache {
  capacity : nat;
  forward : PointerArray.t;
  backward : PointerArray.t;
  K : gmap nat Key;
  V : gmap nat Val;
  events : list Handler;
  _size : nat;
  head : nat;
  tail : nat;
  items : gmap string nat;
}.

Definition with_forward (a : PointerArray.t) (c : Cache) : Cache :=
  mkCache (capacity c) a (backward c) (K c) (V c) (events c) (_size c) (head c) (tail c) (items c).
Definition with_backward (a : PointerArray.t) (c : Cache) : Cache :=
  mkCache (capacity c) (forward c) a (K c) (V c) (events c) (_size c) (head c) (tail c) (items c).
Definition with_K (k : gmap nat Key) (c : Cache) : Cache :=
  mkCache (capacity c) (forward c) (backward c) k (V c) (events c) (_size c) (head c) (tail c) (items c).
Definition with_V (v : gmap nat Val) (c : Cache) : Cache :=
  mkCache (capacity c) (forward c) (backward c) (K c) v (events c) (_size c) (head c) (tail c) (items c).
Definition with_events (e : list Handler) (c : Cache) : Cache :=
  mkCache (capacity c) (forward c) (backward c) (K c) (V c) e (_size c) (head c) (tail c) (items c).
Definition with_size (n : nat) (c : Cache) : Cache :=
  mkCache (capacity c) (forward c) (backward c) (K c) (V c) (events c) n (head c) (tail c) (items c).
Definition with_head (p : nat) (c : Cache) : Cache :=
  mkCache (capacity c) (forward c) (backward c) (K c) (V c) (events c) (_size c) p (tail c) (items c).
Definition with_tail (p : nat) (c : Cache) : Cache :=
  mkCache (capacity c) (forward c) (backward c) (K c) (V c) (events c) (_size c) (head c) p (items c).
Definition with_items (m : gmap string nat) (c : Cache) : Cache :=
  mkCache (capacity c) (forward c) (backward c) (K c) (V c) (events c) (_size c) (head c) (tail c) m.

(** *** The constructor *)

(** [new Array(n)] refuses a length above 2^32 - 1. *)
Definition Array_length_ok (n : Z) : bool := n <=? 2 ^ 32 - 1.

Definition new (capacity : JsValue) : Completion Cache :=
  if invalid_capacity StringToNumber capacity then Throw InvalidCapacityError
  else
    let n := integer_of StringToNumber capacity in
    match PointerArray.getPointerArray n with
    | Throw e => Throw e
    | Normal cls =>
        if Array_length_ok n then
          Normal {| capacity := Z.to_nat n;
                    forward := PointerArray.alloc cls (Z.to_nat n);
                    backward := PointerArray.alloc cls (Z.to_nat n);
                    K := ∅;
                    V := ∅;
                    events := [];
                    _size := 0;
                    head := 0;
                    tail := 0;
                    items := ∅ |}
        else Throw RangeError
    end.

(** [on("evicted", cb)]: the listener joins the end of the list. *)
Definition on (cb : Handler) (c : Cache) : Cache :=
  with_events (events c ++ [cb]) c.

(** [emit("evicted", key, value)]: the listeners run in subscription order;
    the first one that throws ends the delivery. *)
Fixpoint emit (callbacks : list Handler) (key : option Key) (value : option Val)
  : Completion unit :=
  match callbacks with
  | [] => Normal tt
  | cb :: rest =>
      match cb key value with
      | Normal _ => emit rest key value
      | Throw e => Throw e
      end
  end.

(** *** [clear] *)

Definition clear (c : Cache) : Cache :=
  with_items ∅ (with_tail 0 (with_head 0 (with_size 0 c))).

(** *** [splayOnTop] *)

Definition splayOnTop (pointer : nat) (c : Cache) : Cache :=
  let oldHead := head c in
  if decide (head c = pointer) then c
  else
    let previous := PointerArray.read (backward c) pointer in
    let next := PointerArray.read (forward c) pointer in
    let c :=
      if decide (tail c = pointer) then with_tail previous c
      else with_backward (PointerArray.write (backward c) next previous) c in
    let c := with_forward (PointerArray.write (forward c) previous next) c in
    let c := with_backward (PointerArray.write (backward c) oldHead pointer) c in
    let c := with_head pointer c in
    with_forward (PointerArray.write (forward c) pointer oldHead) c.

(** *** [storeKeyValue] *)

Definition storeKeyValue (pointer : nat) (key : Key) (value : Val) (c : Cache) : Cache :=
  let c := with_items (<[ToPropertyKey key := pointer]> (items c)) c in
  let c := with_K (<[pointer := key]> (K c)) c in
  let c := with_V (<[pointer := value]> (V c)) c in
  let c := with_forward (PointerArray.write (forward c) pointer (head c)) c in
  let c := with_backward (PointerArray.write (backward c) (head c) pointer) c in
  with_head pointer c.

(** *** Outcome of a mutating call

    What the caller sees (a result or the error of a listener), the
    notifications handed to the emitter during the call, and the cache as the
    call leaves it.  JavaScript undoes nothing when a call throws. *)

Record Outcome (A : Type) : Type := mkOutcome {
  result : Completion A;
  emitted : list (option Key * option Val);
  after : Cache;
}.
Arguments mkOutcome {A} _ _ _.
Arguments result {A} _.
Arguments emitted {A} _.
Arguments after {A} _.

(** *** [set] *)

Definition set (key : Key) (value : Val) (c : Cache) : Outcome unit :=
  match items c !! ToPropertyKey key with
  | Some pointer =>
      (* The key already exists: update the value and splay on top *)
      let c := splayOnTop pointer c in
      let c := with_V (<[pointer := value]> (V c)) c in
      mkOutcome (Normal tt) [] c
  | None =>
      if (_size c <? capacity c)%nat then
        (* The cache is not yet full *)
        let pointer := _size c in
        let c := with_size (S (_size c)) c in
        mkOutcome (Normal tt) [] (storeKeyValue pointer key value c)
      else
        (* Cache is full: drop the last value *)
        let pointer := tail c in
        let c := with_tail (PointerArray.read (backward c) pointer) c in
        let c := with_items (delete (property_name (K c !! pointer)) (items c)) c in
        match emit (events c) (K c !! pointer) (V c !! pointer) with
        | Throw e => mkOutcome (Throw e) [(K c !! pointer, V c !! pointer)] c
        | Normal _ =>
            mkOutcome (Normal tt) [(K c !! pointer, V c !! pointer)]
              (storeKeyValue pointer key value c)
        end
  end.

(** *** [setpop] *)

Record Popped : Type := mkPopped {
  evicted : bool;
  key : Key;
  value : option Val;
}.

Definition setpop (key : Key) (value : Val) (c : Cache) : Outcome (option Popped) :=
  match items c !! ToPropertyKey key with
  | Some pointer =>
      let c := splayOnTop pointer c in
      let oldValue := V c !! pointer in
      let c := with_V (<[pointer := value]> (V c)) c in
      mkOutcome (Normal (Some (mkPopped false key oldValue))) [] c
  | None =>
      if (_size c <? capacity c)%nat then
        let pointer := _size c in
        let c := with_size (S (_size c)) c in
        (* [oldKey] is still [undefined] *)
        mkOutcome (Normal None) [] (storeKeyValue pointer key value c)
      else
        let pointer := tail c in
        let c := with_tail (PointerArray.read (backward c) pointer) c in
        let oldValue := V c !! pointer in
        let oldKey := K c !! pointer in
        let c := with_items (delete (property_name (K c !! pointer)) (items c)) c in
        match emit (events c) (K c !! pointer) (V c !! pointer) with
        | Throw e => mkOutcome (Throw e) [(K c !! pointer, V c !! pointer)] c
        | Normal _ =>
            let c' := storeKeyValue pointer key value c in
            (* if (oldKey) *)
            match oldKey with
            | Some k =>
                if truthy oldKey
                then mkOutcome (Normal (Some (mkPopped true k oldValue)))
                       [(K c !! pointer, V c !! pointer)] c'
                else mkOutcome (Normal None) [(K c !! pointer, V c !! pointer)] c'
            | None => mkOutcome (Normal None) [(K c !! pointer, V c !! pointer)] c'
            end
        end
  end.

(** *** [has], [get], [peek] *)

Definition has (key : Key) (c : Cache) : bool :=
  bool_decide (is_Some (items c !! ToPropertyKey key)).

(** A miss returns [undefined], here [None]; a hit returns the cell of [V]. *)
Definition get (key : Key) (c : Cache) : option Val * Cache :=
  match items c !! ToPropertyKey key with
  | None => (None, c)
  | Some pointer =>
      let c := splayOnTop pointer c in
      (V c !! pointer, c)
  end.

Definition peek (key : Key) (c : Cache) : option Val :=
  match items c !! ToPropertyKey key with
  | None => None
  | Some pointer => V c !! pointer
  end.

(** *** Iterators

    [keys()], [values()] and [entries()] close over a counter [i], the size
    [l] at creation, and a cursor [pointer]; they read the arrays of the cache
    they came from, which is therefore an argument of [next]. *)

Record Cursor : Type := mkCursor { i : nat; l : nat; pointer : nat }.

Definition cursor (c : Cache) : Cursor :=
  {| i := 0; l := _size c; pointer := head c |}.

(** One call of [next()]: [None] is [{done: true}]. *)
Definition next {A : Type} (item : Cache → nat → A) (c : Cache) (it : Cursor)
  : option A * Cursor :=
  if (l it <=? i it)%nat then (None, it)
  else
    let x := item c (pointer it) in
    let i' := S (i it) in
    let p := if (i' <? l it)%nat then PointerArray.read (forward c) (pointer it)
             else pointer it in
    (Some x, {| i := i'; l := l it; pointer := p |}).

Definition keys_next : Cache → Cursor → option (option Key) * Cursor :=
  next (λ c p, K c !! p).
Definition values_next : Cache → Cursor → option (option Val) * Cursor :=
  next (λ c p, V c !! p).
Definition entries_next : Cache → Cursor → option (option Key * option Val) * Cursor :=
  next (λ c p, (K c !! p, V c !! p)).

(** [Array.from(iterator)] on a cache that is not touched meanwhile: call
    [next()] until it reports done.  [fuel] bounds the number of calls. *)
Fixpoint drain {A : Type} (fuel : nat) (step : Cursor → option A * Cursor) (it : Cursor)
  : list A * Cursor :=
  match fuel with
  | O => ([], it)
  | S fuel =>
      match step it with
      | (None, it') => ([], it')
      | (Some x, it') => let '(xs, it'') := drain fuel step it' in (x :: xs, it'')
      end
  end.

Definition keys (c : Cache) : list (option Key) :=
  (drain (S (_size c)) (keys_next c) (cursor c)).1.
Definition values (c : Cache) : list (option Val) :=
  (drain (S (_size c)) (values_next c) (cursor c)).1.
Definition entries (c : Cache) : list (option Key * option Val) :=
  (drain (S (_size c)) (entries_next c) (cursor c)).1.

(** *** [inspect] and the default iterator *)

(** [Map.prototype.set] on a [Map], kept as the list of its entries in
    insertion order: a key that is there keeps its place and takes the new
    value, a new key goes last.  Keys of a [Map] are compared as values, so
    the number 1 and the string "1" are two keys. *)
Fixpoint Map_set (k : option Key) (v : option Val)
    (m : list (option Key * option Val)) : list (option Key * option Val) :=
  match m with
  | [] => [(k, v)]
  | (k', v') :: rest =>
      if decide (k' = k) then (k, v) :: rest
      else (k', v') :: Map_set k v rest
  end.

(** [inspect()]: a [Map] filled from [entries()], one [set] per step of the
    iterator.  The [constructor] property defined on the [Map] object
    afterwards is no entry of it. *)
Definition inspect (c : Cache) : list (option Key * option Val) :=
  foldl (λ proxy step, Map_set step.1 step.2 proxy) [] (entries c).

(** [cache[Symbol.iterator]()] returns [entries()]. *)
Definition Symbol_iterator (c : Cache) : list (option Key * option Val) :=
  entries c.

(** *** [from] *)

(** An iterable of pairs, with the optional [size] and [length] properties. *)
Record Iterable : Type := mkIterable {
  pairs : list (Key * Val);
  size_property : option JsNumber;
  length_property : option JsNumber;
}.

(** Truthiness of an optional number: [undefined], [0] and [NaN] are falsy. *)
Definition number_truthy (n : option JsNumber) : bool :=
  match n with
  | None => false
  | Some NaN => false
  | Some (Finite q) => negb (Qeq_bool q 0)
  | Some _ => true
  end.

(** [iterable.size || iterable.length || 0] *)
Definition default_capacity (it : Iterable) : JsValue :=
  if number_truthy (size_property it) then
    match size_property it with Some n => JsNum n | None => JsUndefined end
  else if number_truthy (length_property it) then
    match length_property it with Some n => JsNum n | None => JsUndefined end
  else JsNum (Finite 0).

(** The [for ... of] loop of [from]. *)
Fixpoint set_each (ps : list (Key * Val)) (c : Cache) : Completion Cache :=
  match ps with
  | [] => Normal c
  | (k, v) :: rest =>
      let o := set k v c in
      match result o with
      | Normal _ => set_each rest (after o)
      | Throw e => Throw e
      end
  end.

(** The parameter [capacity] of [from]: an argument that is [undefined]
    takes the default. *)
Definition capacity_parameter (it : Iterable) (capacity : JsValue) : JsValue :=
  match capacity with
  | JsUndefined => default_capacity it
  | _ => capacity
  end.

Definition from (it : Iterable) (capacity : JsValue) : Completion Cache :=
  match new (capacity_parameter it capacity) with
  | Throw e => Throw e
  | Normal cache => set_each (pairs it) cache
  end.

(** *** Sequences of calls *)

Inductive Call : Type :=
  | CallSet (key : Key) (value : Val)
  | CallSetpop (key : Key) (value : Val)
  | CallGet (key : Key)
  | CallPeek (key : Key)
  | CallHas (key : Key)
  | CallClear
  | CallKeys
  | CallValues
  | CallEntries.

(** The cache after one call.  Reads and iterations leave it as it is. *)
Definition call (op : Call) (c : Cache) : Cache :=
  match op with
  | CallSet k v => after (set k v c)
  | CallSetpop k v => after (setpop k v c)
  | CallGet k => (get k c).2
  | CallClear => clear c
  | CallPeek _ | CallHas _ | CallKeys | CallValues | CallEntries => c
  end.

Definition calls (ops : list Call) (c : Cache) : Cache :=
  foldl (λ c op, call op c) c ops.

(** Reachable: obtained from a freshly constructed cache by such calls. *)
Definition reachable (c : Cache) : Prop :=
  ∃ (capacity : JsValue) (c0 : Cache) (ops : list Call),
    new capacity = Normal c0 ∧ c = calls ops c0.

End WithValues.

Arguments mkOutcome {Val A} _ _ _.
Arguments result {Val A} _.
Arguments emitted {Val A} _.
Arguments after {Val A} _.
Arguments Cache : clear implicits.
Arguments Handler : clear implicits.
Arguments Outcome : clear implicits.
Arguments Popped : clear implicits.
Arguments Iterable : clear implicits.
Arguments Call : clear implicits.

End LRUCache.


Import LRUCache.

(** ** The representation invariant *)

(** Every element of the list is related to the one after it. *)
Fixpoint adjacent (R : nat → nat → Prop) (chain : list nat) : Prop :=
  match chain with
  | [] => True
  | a :: rest =>
      match rest with
      | [] => True
      | b :: _ => R a b
      end ∧ adjacent R rest
  end.

(** [forward] leads from each slot of the chain to the next one, [backward]
    from each slot to the one before. *)
Definition fwd_linked (a : PointerArray.t) : list nat → Prop :=
  adjacent (λ s s', PointerArray.read a s = s').
Definition bwd_linked (a : PointerArray.t) : list nat → Prop :=
  adjacent (λ s s', PointerArray.read a s' = s).

(** Every number below [n] is stored by the class without loss. *)
Definition fits (cls : PointerArray.Class) (n : nat) : Prop :=
  (N.of_nat n ≤ 2 ^ PointerArray.bits cls)%N.

(** The chain visited from [p] by following [a] for [n] slots. *)
Fixpoint walk (a : PointerArray.t) (n : nat) (p : nat) : list nat :=
  match n with
  | O => []
  | S n => p :: walk a n (PointerArray.read a p)
  end.

Section Invariant.

Context {Val : Type}.

(** The fixed storage: sized to the capacity, wide enough for every slot. *)
Record storage_ok (c : Cache Val) : Prop := {
  capacity_pos : (0 < capacity c)%nat;
  forward_fits : fits (PointerArray.cls (forward c)) (capacity c);
  backward_fits : fits (PointerArray.cls (backward c)) (capacity c);
  forward_length : length (PointerArray.elems (forward c)) = capacity c;
  backward_length : length (PointerArray.elems (backward c)) = capacity c;
  forward_cells : Forall (λ v, (v < capacity c)%nat) (PointerArray.elems (forward c));
  backward_cells : Forall (λ v, (v < capacity c)%nat) (PointerArray.elems (backward c));
}.

(** [repr c chain]: the cache [c] holds the live slots [chain], most recently
    used first. *)
Record repr (c : Cache Val) (chain : list nat) : Prop := {
  repr_storage : storage_ok c;
  repr_size : (_size c ≤ capacity c)%nat;
  repr_length : length chain = _size c;
  repr_nodup : NoDup chain;
  repr_slots : ∀ s, s ∈ chain ↔ (s < _size c)%nat;
  repr_head : head c = default 0%nat (chain !! 0%nat);
  repr_tail : tail c = default 0%nat (last chain);
  repr_forward : fwd_linked (forward c) chain;
  repr_backward : bwd_linked (backward c) chain;
  repr_index : ∀ name s, items c !! name = Some s →
      s ∈ chain ∧ ∃ k, K c !! s = Some k ∧ ToPropertyKey k = name;
  repr_cells : ∀ s, s ∈ chain →
      ∃ k v, K c !! s = Some k ∧ V c !! s = Some v ∧ items c !! ToPropertyKey k = Some s;
}.

Definition wf (c : Cache Val) : Prop := ∃ chain, repr c chain.

(** The slots met from [head] along [forward], as many as [_size]. *)
Definition slots (c : Cache Val) : list nat :=
  walk (forward c) (_size c) (head c).

(** What the iterators read at a slot. *)
Definition cell (c : Cache Val) (s : nat) : option Key * option Val :=
  (K c !! s, V c !! s).

(** The same cache over pointer arrays of another class. *)
Definition retype (cls : PointerArray.Class) (c : Cache Val) : Cache Val :=
  with_backward (PointerArray.make cls (PointerArray.elems (backward c)))
    (with_forward (PointerArray.make cls (PointerArray.elems (forward c))) c).

(** The cache as the full branch of [set] and [setpop] has it when the
    listeners are called: the tail moved back, the name of the tail key
    deleted, nothing stored yet. *)
Definition evict_tail (c : Cache Val) : Cache Val :=
  with_items (delete (property_name (K c !! tail c)) (items c))
    (with_tail (PointerArray.read (backward c) (tail c)) c).

(** The chain after [set]: a key that is there is promoted; a new key goes
    first, displacing the last slot when the cache is full. *)
Definition set_chain (c : Cache Val) (chain : list nat) (k : Key) : list nat :=
  match items c !! ToPropertyKey k with
  | Some p => p :: filter (λ s, s ≠ p) chain
  | None =>
      if decide (_size c < capacity c)%nat then _size c :: chain
      else tail c :: removelast chain
  end.

(** No listener of the cache throws. *)
Definition listeners_return (c : Cache Val) : Prop :=
  ∀ k v, emit (events c) k v = Normal tt.

(** Two caches with the same content: the same capacity, index and
    listeners, the same chain, and the same keys and values at its slots.
    The cells outside the chain, and the pointers that no link uses, may
    differ. *)
Definition alike (c1 c2 : Cache Val) : Prop :=
  capacity c1 = capacity c2 ∧ items c1 = items c2 ∧ events c1 = events c2
  ∧ ∃ chain, repr c1 chain ∧ repr c2 chain
             ∧ ∀ s, s ∈ chain → cell c1 s = cell c2 s.

(** What a call hands back to its caller. *)
Inductive Answer : Type :=
  | AnsSet (r : Completion unit) (notified : list (option Key * option Val))
  | AnsSetpop (r : Completion (option (Popped Val))) (notified : list (option Key * option Val))
  | AnsGet (v : option Val)
  | AnsPeek (v : option Val)
  | AnsHas (b : bool)
  | AnsClear
  | AnsKeys (ks : list (option Key))
  | AnsValues (vs : list (option Val))
  | AnsEntries (es : list (option Key * option Val)).

Definition answer (op : Call Val) (c : Cache Val) : Answer :=
  match op with
  | CallSet k v => let o := set k v c in AnsSet (result o) (emitted o)
  | CallSetpop k v => let o := setpop k v c in AnsSetpop (result o) (emitted o)
  | CallGet k => AnsGet (get k c).1
  | CallPeek k => AnsPeek (peek k c)
  | CallHas k => AnsHas (has k c)
  | CallClear => AnsClear
  | CallKeys => AnsKeys (keys c)
  | CallValues => AnsValues (values c)
  | CallEntries => AnsEntries (entries c)
  end.

(** *** The order [from] is specified to produce

    Most recent first, a key keeping only its last pair: a pair is dropped
    when its key comes again later in the sequence. *)
Fixpoint most_recent_first (ps : list (Key * Val)) : list (Key * Val) :=
  match ps with
  | [] => []
  | (k, v) :: rest =>
      if bool_decide (k ∈ rest.*1) then most_recent_first rest
      else most_recent_first rest ++ [(k, v)]
  end.

(** Keys filed under the same property name are the same key. *)
Definition names_agree (ps : list (Key * Val)) : Prop :=
  ∀ k1 k2, k1 ∈ ps.*1 → k2 ∈ ps.*1 → ToPropertyKey k1 = ToPropertyKey k2 → k1 = k2.

(** What [entries()] yields for a list of pairs. *)
Definition yielded (ps : list (Key * Val)) : list (option Key * option Val) :=
  (λ kv, (Some kv.1, Some kv.2)) <$> ps.

(** The entry of [k] is in place: filed in the index, its key and value
    stored, its slot at the head. *)
Definition committed (k : Key) (v : Val) (c : Cache Val) : Prop :=
  ∃ p, items c !! ToPropertyKey k = Some p ∧ K c !! p = Some k
       ∧ V c !! p = Some v ∧ head c = p.

(** After [set(k1, v1)] the calls [has(k2)], [peek(k2)] and [get(k2)] answer
    as before. *)
Definition undisturbed (c : Cache Val) (k1 : Key) (v1 : Val) (k2 : Key) : Prop :=
  let c' := after (set k1 v1 c) in
  has k2 c' = has k2 c ∧ peek k2 c' = peek k2 c ∧ (get k2 c').1 = (get k2 c).1.

(** A capacity argument that is a finite positive integer. *)
Definition finite_positive_integer (v : JsValue) : Prop :=
  ∃ (q : Q) (n : Z), v = JsNum (Finite q) ∧ Qeq q (inject_Z n) ∧ 0 < n.

End Invariant.

(** ** Sample caches for the closed examples *)

(** A stand-in for [StringToNumber]; no capacity below is a string. *)
Definition no_strings : string → JsNumber := λ _, NaN.

(** [new LRUCache(n)] for a small [n], with numbers as values. *)
Definition fresh (n : nat) : Cache nat :=
  mkCache n (PointerArray.alloc PointerArray.Uint8Array n)
    (PointerArray.alloc PointerArray.Uint8Array n) ∅ ∅ [] 0 0 0 ∅.

(** The scenario of the specification: capacity 3, then one, two, three. *)
Definition sample : Cache nat :=
  calls [CallSet (KStr "one") 1%nat; CallSet (KStr "two") 2%nat;
         CallSet (KStr "three") 3%nat] (fresh 3).

(** A full cache of capacity 1 whose only key is the number 0. *)
Definition sample_zero : Cache nat :=
  calls [CallSet (KNum 0) 7%nat] (fresh 1).

(** A cache with room that holds the string key "1". *)
Definition sample_twin : Cache nat :=
  calls [CallSet (KStr "1") 10%nat] (fresh 2).

(** An array of two pairs whose keys are the string "1" and the number 1. *)
Definition twin_pairs : Iterable nat :=
  mkIterable [(KStr "1", 10%nat); (KNum 1, 20%nat)] None
    (Some (Finite 2)).

(** An array of three pairs with string keys, one of them twice. *)
Definition abc_pairs : Iterable nat :=
  mkIterable [(KStr "a", 1%nat); (KStr "b", 2%nat); (KStr "a", 3%nat)] None
    (Some (Finite 3)).

(** The empty array. *)
Definition no_pairs : Iterable nat :=
  mkIterable [] None (Some (Finite 0)).

(** A listener that throws. *)
Definition boom : Handler nat := λ _ _, Throw (HandlerError "boom").

(** A full cache of capacity 1 with that listener subscribed. *)
Definition loud : Cache nat :=
  on boom (calls [CallSet (KStr "one") 1%nat] (fresh 1)).

(** * Properties *)

#[local] Open Scope nat_scope.
(** ** The scenarios of the test suite, run on the embedding *)

Example scenario_capacity_3 :
  entries sample
  = [(Some (KStr "three"), Some 3); (Some (KStr "two"), Some 2); (Some (KStr "one"), Some 1)]
  ∧ entries (calls [CallSet (KStr "four") 4] sample)
    = [(Some (KStr "four"), Some 4); (Some (KStr "three"), Some 3); (Some (KStr "two"), Some 2)]
  ∧ entries (calls [CallSet (KStr "four") 4; CallSet (KStr "two") 5] sample)
    = [(Some (KStr "two"), Some 5); (Some (KStr "four"), Some 4); (Some (KStr "three"), Some 3)]
  ∧ get (KStr "one") (calls [CallSet (KStr "four") 4; CallSet (KStr "two") 5] sample)
    = (None, calls [CallSet (KStr "four") 4; CallSet (KStr "two") 5] sample)
  ∧ (get (KStr "four") (calls [CallSet (KStr "four") 4; CallSet (KStr "two") 5] sample)).1
    = Some 4
  ∧ entries (calls [CallSet (KStr "four") 4; CallSet (KStr "two") 5; CallGet (KStr "four")]
               sample)
    = [(Some (KStr "four"), Some 4); (Some (KStr "two"), Some 5); (Some (KStr "three"), Some 3)].
Proof. vm_compute. repeat split. Qed.

Example scenario_capacity_1 :
  entries (calls [CallSet (KStr "one") 1; CallSet (KStr "two") 2; CallSet (KStr "three") 3;
                  CallGet (KStr "one"); CallGet (KStr "three"); CallGet (KStr "three")]
             (fresh 1))
  = [(Some (KStr "three"), Some 3)].
Proof. vm_compute. reflexivity. Qed.

Example scenario_setpop :
  result (setpop (KStr "four") 4 sample)
  = Normal (Some (mkPopped true (KStr "one") (Some 1)))
  ∧ values (after (setpop (KStr "four") 4 sample)) = [Some 4; Some 3; Some 2]
  ∧ result (setpop (KStr "three") 10 sample)
    = Normal (Some (mkPopped false (KStr "three") (Some 3)))
  ∧ values (after (setpop (KStr "three") 10 sample)) = [Some 10; Some 2; Some 1]
  ∧ result (setpop (KStr "three") 3
              (calls [CallSet (KStr "one") 1; CallSet (KStr "two") 2] (fresh 3)))
    = Normal None.
Proof. vm_compute. repeat split. Qed.

Example scenario_clear :
  let c := calls [CallSet (KStr "one") 1; CallSet (KStr "two") 2; CallSet (KStr "one") 3;
                  CallGet (KStr "two"); CallClear] (fresh 3) in
  _size c = 0 ∧ capacity c = 3 ∧ has (KStr "two") c = false
  ∧ entries (calls [CallSet (KStr "one") 1; CallSet (KStr "two") 2; CallSet (KStr "three") 3;
                    CallSet (KStr "two") 6; CallSet (KStr "four") 4] c)
    = [(Some (KStr "four"), Some 4); (Some (KStr "two"), Some 6); (Some (KStr "three"), Some 3)].
Proof. vm_compute. repeat split. Qed.

Example scenario_events :
  let c1 := on (λ _ _, Normal tt) (fresh 1) in
  let o1 := set (KStr "one") 1 c1 in
  let o2 := set (KStr "two") 2 (after o1) in
  let o3 := set (KStr "three") 3 (after o2) in
  emitted o1 ++ emitted o2 ++ emitted o3
  = [(Some (KStr "one"), Some 1); (Some (KStr "two"), Some 2)].
Proof. vm_compute. reflexivity. Qed.

Example scenario_from_map :
  ∃ c, from no_strings
         (mkIterable [(KStr "one", 1); (KStr "two", 2)] (Some (Finite 2)) None)
         JsUndefined = Normal c
       ∧ capacity c = 2
       ∧ entries c = [(Some (KStr "two"), Some 2); (Some (KStr "one"), Some 1)].
Proof. eexists. vm_compute. repeat split. Qed.

#[local] Open Scope Z_scope.

(** ** Construction *)

Section Construction.
Context {Val : Type}.
Variable StringToNumber : string → JsNumber.

Lemma Qfloor_of_integer (q : Q) (n : Z) : Qeq q (inject_Z n) → Qfloor q = n.
Proof. intros H. rewrite (Qfloor_comp _ _ H). apply Qfloor_Z. Qed.

Lemma invalid_capacity_false (v : JsValue) :
  invalid_capacity StringToNumber v = false → finite_positive_integer v.
Proof.
  unfold invalid_capacity, isFinite, Math_floor, le_zero.
  destruct v as [| |b|n|s|n]; simpl.
  - discriminate.
  - discriminate.
  - destruct b; discriminate.
  - destruct n as [| | |q]; simpl; try discriminate.
    intros H. apply orb_false_elim in H as [H1 H2].
    apply negb_false_iff, Qeq_bool_iff in H1.
    exists q, (Qfloor q). split; [done|]. split; [by symmetry|].
    destruct (Z_lt_le_dec 0 (Qfloor q)) as [|Hle]; [done|].
    assert (Qle_bool q 0 = true); [|congruence].
    apply Qle_bool_iff. rewrite <- H1. change 0%Q with (inject_Z 0).
    by rewrite <- Zle_Qle.
  - destruct (StringToNumber s); simpl; discriminate.
  - destruct n; simpl; discriminate.
Qed.

Lemma invalid_capacity_integer (q : Q) (n : Z) :
  Qeq q (inject_Z n) → 0 < n → invalid_capacity StringToNumber (JsNum (Finite q)) = false.
Proof.
  intros Hq Hn. unfold invalid_capacity, isFinite, Math_floor, le_zero. simpl.
  rewrite (Qfloor_of_integer q n Hq).
  apply orb_false_intro.
  - apply negb_false_iff, Qeq_bool_iff. by symmetry.
  - destruct (Qle_bool q 0) eqn:E; [|done].
    apply Qle_bool_iff in E. rewrite Hq in E. change 0%Q with (inject_Z 0) in E.
    rewrite <- Zle_Qle in E. lia.
Qed.

Lemma new_rejects (v : JsValue) :
  ¬ finite_positive_integer v → new (Val:=Val) StringToNumber v = Throw InvalidCapacityError.
Proof.
  intros Hv. unfold new.
  destruct (invalid_capacity StringToNumber v) eqn:E; [done|].
  destruct Hv. by apply invalid_capacity_false.
Qed.

Lemma getPointerArray_supported (n : Z) :
  n - 1 <= 4294967295 → ∃ cls, PointerArray.getPointerArray n = Normal cls ∧ (n <= 2 ^ Z.of_N (PointerArray.bits cls)).
Proof.
  intros Hn. unfold PointerArray.getPointerArray, PointerArray.MAX_8BIT_INTEGER,
    PointerArray.MAX_16BIT_INTEGER, PointerArray.MAX_32BIT_INTEGER.
  repeat case_match; try lia; eexists; (split; [done|]); simpl; lia.
Qed.

Lemma new_accepts (q : Q) (n : Z) :
  Qeq q (inject_Z n) → 0 < n <= 4294967295 →
  ∃ c : Cache Val, new StringToNumber (JsNum (Finite q)) = Normal c
    ∧ capacity c = Z.to_nat n ∧ _size c = 0%nat ∧ head c = 0%nat ∧ tail c = 0%nat
    ∧ items c = ∅ ∧ events c = []
    ∧ (∃ cls, PointerArray.getPointerArray n = Normal cls
         ∧ forward c = PointerArray.alloc cls (Z.to_nat n)
         ∧ backward c = PointerArray.alloc cls (Z.to_nat n)).
Proof.
  intros Hq [Hn Hmax]. unfold new.
  rewrite (invalid_capacity_integer q n Hq Hn).
  unfold integer_of. simpl. rewrite (Qfloor_of_integer q n Hq).
  destruct (getPointerArray_supported n) as (cls & -> & _); [lia|].
  unfold Array_length_ok. case_match; [|lia].
  eexists. split; [done|]. simpl. repeat split; eauto.
Qed.
End Construction.

(** ** Typed arrays *)

#[local] Open Scope nat_scope.

Lemma wrap_fits (cls : PointerArray.Class) (n v : nat) :
  fits cls n → v < n → PointerArray.wrap cls v = v.
Proof.
  unfold fits, PointerArray.wrap. intros Hfit Hv.
  rewrite N.mod_small by lia. apply Nat2N.id.
Qed.

Lemma write_cls (a : PointerArray.t) (i v : nat) :
  PointerArray.cls (PointerArray.write a i v) = PointerArray.cls a.
Proof. done. Qed.

Lemma write_length (a : PointerArray.t) (i v : nat) :
  length (PointerArray.elems (PointerArray.write a i v)) = length (PointerArray.elems a).
Proof. simpl. apply length_insert. Qed.

Lemma read_write_eq (a : PointerArray.t) (n i v : nat) :
  fits (PointerArray.cls a) n → v < n → i < length (PointerArray.elems a) →
  PointerArray.read (PointerArray.write a i v) i = v.
Proof.
  intros Hfit Hv Hi. unfold PointerArray.read, PointerArray.write. simpl.
  rewrite list_lookup_insert_eq by done. simpl. by eapply wrap_fits.
Qed.

Lemma read_write_ne (a : PointerArray.t) (i j v : nat) :
  i ≠ j → PointerArray.read (PointerArray.write a i v) j = PointerArray.read a j.
Proof.
  intros Hne. unfold PointerArray.read, PointerArray.write. simpl.
  by rewrite list_lookup_insert_ne.
Qed.

Lemma read_bounded (a : PointerArray.t) (n i : nat) :
  0 < n → Forall (λ v, v < n) (PointerArray.elems a) → PointerArray.read a i < n.
Proof.
  intros Hn Hall. unfold PointerArray.read.
  destruct (PointerArray.elems a !! i) as [v|] eqn:E; simpl; [|done].
  by eapply (Forall_lookup_1 _ _ _ _ Hall E).
Qed.

Lemma write_bounded (a : PointerArray.t) (n i v : nat) :
  fits (PointerArray.cls a) n → v < n →
  Forall (λ v, v < n) (PointerArray.elems a) →
  Forall (λ v, v < n) (PointerArray.elems (PointerArray.write a i v)).
Proof.
  intros Hfit Hv Hall. simpl. rewrite (wrap_fits _ n) by done.
  destruct (decide (i < length (PointerArray.elems a))).
  - by apply Forall_insert.
  - by rewrite list_insert_ge by lia.
Qed.

(** ** Chains *)

Lemma adjacent_app (R : nat → nat → Prop) (xs : list nat) (y : nat) (ys : list nat) :
  adjacent R (xs ++ y :: ys) ↔ adjacent R (xs ++ [y]) ∧ adjacent R (y :: ys).
Proof.
  induction xs as [|x xs IH]; simpl.
  - tauto.
  - rewrite IH. destruct xs; simpl; tauto.
Qed.

Lemma adjacent_prefix (R : nat → nat → Prop) (xs ys : list nat) :
  adjacent R (xs ++ ys) → adjacent R xs.
Proof.
  induction xs as [|x xs IH]; simpl; [done|].
  intros [H1 H2]. split; [|by apply IH]. by destruct xs.
Qed.

Lemma adjacent_suffix (R : nat → nat → Prop) (xs ys : list nat) :
  adjacent R (xs ++ ys) → adjacent R ys.
Proof. induction xs as [|x xs IH]; simpl; [done|]. intros [_ H]. by apply IH. Qed.

(** A relation may be swapped for another one that agrees with it on the
    sources of the links, or on their targets. *)
Lemma adjacent_sources (R R' : nat → nat → Prop) (l : list nat) (x : nat) :
  (∀ a b, a ∈ l → R a b → R' a b) → adjacent R (l ++ [x]) → adjacent R' (l ++ [x]).
Proof.
  induction l as [|a l IH]; simpl; [done|].
  intros HR [H1 H2]. split.
  - destruct (l ++ [x]); [done|]. apply HR; [left|done].
  - apply IH; [|done]. intros ? ? ?. apply HR. by right.
Qed.

Lemma adjacent_targets (R R' : nat → nat → Prop) (x : nat) (l : list nat) :
  (∀ a b, b ∈ l → R a b → R' a b) → adjacent R (x :: l) → adjacent R' (x :: l).
Proof.
  revert x. induction l as [|b l IH]; intros x HR; simpl; [done|].
  intros [H1 H2]. split.
  - apply HR; [left|done].
  - apply (IH b); [|done]. intros ? ? ?. apply HR. by right.
Qed.

Lemma fwd_linked_write_last (a : PointerArray.t) (i v : nat) (l : list nat) (x : nat) :
  i ∉ l → fwd_linked a (l ++ [x]) → fwd_linked (PointerArray.write a i v) (l ++ [x]).
Proof.
  intros Hi. apply adjacent_sources. intros s s' Hs <-.
  apply read_write_ne. intros ->. done.
Qed.

Lemma fwd_linked_write (a : PointerArray.t) (i v : nat) (l : list nat) :
  i ∉ l → fwd_linked a l → fwd_linked (PointerArray.write a i v) l.
Proof.
  intros Hi Hl.
  destruct l as [|x l _] using rev_ind; [done|].
  apply fwd_linked_write_last; [|done]. set_solver.
Qed.

Lemma bwd_linked_write_first (a : PointerArray.t) (i v : nat) (x : nat) (l : list nat) :
  i ∉ l → bwd_linked a (x :: l) → bwd_linked (PointerArray.write a i v) (x :: l).
Proof.
  intros Hi. apply adjacent_targets. intros s s' Hs <-.
  apply read_write_ne. intros ->. done.
Qed.

Lemma bwd_linked_write (a : PointerArray.t) (i v : nat) (l : list nat) :
  i ∉ l → bwd_linked a l → bwd_linked (PointerArray.write a i v) l.
Proof.
  intros Hi Hl. destruct l as [|x l]; [done|].
  apply bwd_linked_write_first; [|done]. set_solver.
Qed.

Lemma walk_linked (a : PointerArray.t) (p : nat) (l : list nat) :
  fwd_linked a (p :: l) → walk a (S (length l)) p = p :: l.
Proof.
  revert p. induction l as [|q l IH]; intros p; simpl; [done|].
  intros [-> H]. f_equal. by apply IH.
Qed.

Lemma walk_length (a : PointerArray.t) (n p : nat) : length (walk a n p) = n.
Proof. revert p. induction n as [|n IH]; intros p; simpl; [done|]. by rewrite IH. Qed.

Lemma adjacent_cons_first (R : nat → nat → Prop) (p : nat) (l : list nat) :
  (∀ b, l !! 0 = Some b → R p b) → adjacent R l → adjacent R (p :: l).
Proof. intros H Hl. simpl. split; [|done]. destruct l; [done|]. by apply H. Qed.

Lemma bwd_linked_write_head (a : PointerArray.t) (v : nat) (l : list nat) :
  NoDup l → bwd_linked a l →
  bwd_linked (PointerArray.write a (default 0 (l !! 0)) v) l.
Proof.
  intros Hnd Hl. destruct l as [|x l]; [done|]. simpl.
  apply bwd_linked_write_first; [|done]. by apply NoDup_cons in Hnd as [? _].
Qed.

Lemma first_app_cons (pre : list nat) (prev : nat) (xs ys : list nat) :
  (pre ++ prev :: xs) !! 0 = (pre ++ prev :: ys) !! 0.
Proof. by destruct pre. Qed.

Lemma first_elem_of (l : list nat) (x : nat) : l !! 0 = Some x → x ∈ l.
Proof. intros H. by eapply list_elem_of_lookup_2. Qed.

Lemma chain_split_before (chain : list nat) (p : nat) :
  p ∈ chain → chain !! 0 ≠ Some p →
  ∃ pre prev post, chain = pre ++ prev :: p :: post.
Proof.
  intros Hin Hfirst.
  apply list_elem_of_split in Hin as (l1 & l2 & ->).
  destruct l1 as [|prev pre _] using rev_ind; [done|].
  exists pre, prev, l2. by rewrite <- app_assoc.
Qed.

Lemma last_default_cons (x : nat) (l : list nat) :
  default 0 (last (x :: l)) = default x (last l).
Proof. destruct l as [|y l _] using rev_ind; [done|]. by rewrite app_comm_cons, !last_snoc. Qed.

Section Representation.

Context {Val : Type}.
Implicit Types (c : Cache Val) (chain : list nat).

(** *** Storage *)

Lemma storage_ok_same c c' :
  capacity c' = capacity c → forward c' = forward c → backward c' = backward c →
  storage_ok c → storage_ok c'.
Proof. intros Hc Hf Hb [*]. split; rewrite ?Hc, ?Hf, ?Hb; done. Qed.

Lemma storage_ok_write_forward c (i v : nat) :
  storage_ok c → v < capacity c →
  storage_ok (with_forward (PointerArray.write (forward c) i v) c).
Proof.
  intros [*] Hv. split; simpl; try done.
  - by rewrite length_insert.
  - by apply (write_bounded (forward c)).
Qed.

Lemma storage_ok_write_backward c (i v : nat) :
  storage_ok c → v < capacity c →
  storage_ok (with_backward (PointerArray.write (backward c) i v) c).
Proof.
  intros [*] Hv. split; simpl; try done.
  - by rewrite length_insert.
  - by apply (write_bounded (backward c)).
Qed.

Lemma forward_read_bounded c (i : nat) :
  storage_ok c → PointerArray.read (forward c) i < capacity c.
Proof. intros [*]. by apply read_bounded. Qed.

Lemma backward_read_bounded c (i : nat) :
  storage_ok c → PointerArray.read (backward c) i < capacity c.
Proof. intros [*]. by apply read_bounded. Qed.

(** *** Facts read off the invariant *)

Lemma repr_slot_bounded c chain (s : nat) :
  repr c chain → s ∈ chain → s < capacity c.
Proof. intros H Hs. apply (repr_slots _ _ H) in Hs. pose proof (repr_size _ _ H). lia. Qed.

Lemma repr_head_bounded c chain : repr c chain → head c < capacity c.
Proof.
  intros H. rewrite (repr_head _ _ H).
  destruct (chain !! 0) as [h|] eqn:E; simpl.
  - eapply repr_slot_bounded; [done|]. by apply first_elem_of.
  - apply (capacity_pos _ (repr_storage _ _ H)).
Qed.

Lemma repr_index_slot c chain (name : string) (s : nat) :
  repr c chain → items c !! name = Some s → s ∈ chain.
Proof. intros H Hs. by apply (repr_index _ _ H) in Hs as [? _]. Qed.

(** Two names filed at the same slot are the same name. *)
Lemma repr_index_inj c chain (n1 n2 : string) (s : nat) :
  repr c chain → items c !! n1 = Some s → items c !! n2 = Some s → n1 = n2.
Proof.
  intros H H1 H2.
  apply (repr_index _ _ H) in H1 as (_ & k1 & Hk1 & <-).
  apply (repr_index _ _ H) in H2 as (_ & k2 & Hk2 & <-).
  congruence.
Qed.

(** The chain is the one the iterators walk. *)
Lemma repr_slots_eq c chain : repr c chain → slots c = chain.
Proof.
  intros H. unfold slots. rewrite <- (repr_length _ _ H), (repr_head _ _ H).
  destruct chain as [|h chain]; [done|]. simpl default.
  apply walk_linked, (repr_forward _ _ H).
Qed.

(** *** Re-linking a permutation of the chain *)

Lemma repr_relink c c' chain chain' :
  repr c chain → chain' ≡ₚ chain →
  capacity c' = capacity c → _size c' = _size c →
  items c' = items c → K c' = K c → V c' = V c →
  storage_ok c' →
  head c' = default 0 (chain' !! 0) →
  tail c' = default 0 (last chain') →
  fwd_linked (forward c') chain' →
  bwd_linked (backward c') chain' →
  repr c' chain'.
Proof.
  intros H Hperm Hcap Hsize Hit HK HV Hst Hhd Htl Hf Hb.
  split; try done.
  - rewrite Hcap, Hsize. apply (repr_size _ _ H).
  - rewrite Hperm, Hsize. apply (repr_length _ _ H).
  - rewrite Hperm. apply (repr_nodup _ _ H).
  - intros s. rewrite Hperm, Hsize. apply (repr_slots _ _ H).
  - intros name s. rewrite Hit, HK, Hperm. apply (repr_index _ _ H).
  - intros s. rewrite Hit, HK, HV, Hperm. apply (repr_cells _ _ H).
Qed.

End Representation.

Lemma filter_all {A : Type} (P : A → Prop) `{!∀ x, Decision (P x)} (l : list A) :
  (∀ x, x ∈ l → P x) → filter P l = l.
Proof.
  induction l as [|x l IH]; intros HP; [done|].
  rewrite filter_cons_True by (apply HP; left).
  f_equal. apply IH. intros y Hy. apply HP. by right.
Qed.

Lemma adjacent_cons2 (R : nat → nat → Prop) (a b : nat) (l : list nat) :
  adjacent R (a :: b :: l) ↔ R a b ∧ adjacent R (b :: l).
Proof. done. Qed.

(** Promoting [p]: it comes first, the others keep their order. *)
Lemma filter_ne_split (l1 l2 : list nat) (p : nat) :
  NoDup (l1 ++ p :: l2) → filter (λ s, s ≠ p) (l1 ++ p :: l2) = l1 ++ l2.
Proof.
  intros Hnd. apply NoDup_app in Hnd as (_ & H1 & H2).
  apply NoDup_cons in H2 as [H2 _].
  rewrite filter_app, filter_cons_False by (intros ?; done).
  rewrite !filter_all; [done| |].
  - intros x Hx ->. done.
  - intros x Hx ->. apply (H1 p); [done|left].
Qed.

Section Splay.

Context {Val : Type}.
Implicit Types (c : Cache Val) (chain : list nat).

Lemma splayOnTop_fields c (p : nat) :
  capacity (splayOnTop p c) = capacity c ∧ _size (splayOnTop p c) = _size c
  ∧ items (splayOnTop p c) = items c ∧ K (splayOnTop p c) = K c
  ∧ V (splayOnTop p c) = V c ∧ events (splayOnTop p c) = events c
  ∧ head (splayOnTop p c) = p.
Proof. unfold splayOnTop. repeat case_decide; simpl; done. Qed.

(** [splayOnTop] of a live slot: the slot moves to the front of the chain and
    the rest keeps its order. *)
Lemma repr_splayOnTop c chain (p : nat) :
  repr c chain → p ∈ chain →
  repr (splayOnTop p c) (p :: filter (λ s, s ≠ p) chain).
Proof.
  intros H Hp.
  pose proof (repr_storage _ _ H) as Hst.
  pose proof (repr_nodup _ _ H) as Hnd.
  pose proof (repr_head_bounded _ _ H) as Hhead.
  pose proof (repr_slot_bounded _ _ p H Hp) as Hpb.
  destruct (decide (head c = p)) as [Heq|Hne].
  { (* already on top *)
    unfold splayOnTop. rewrite decide_True by done.
    rewrite (repr_head _ _ H) in Heq.
    destruct chain as [|h rest]; [by apply elem_of_nil in Hp|].
    simpl in Heq. subst h.
    pose proof (filter_ne_split [] rest p Hnd) as E. simpl in E. by rewrite E. }
  destruct (chain_split_before chain p Hp) as (pre & prev & post & ->).
  { rewrite (repr_head _ _ H) in Hne. intros E. rewrite E in Hne. done. }
  assert (Hprev : PointerArray.read (backward c) p = prev).
  { pose proof (repr_backward _ _ H) as Hb.
    apply adjacent_suffix in Hb. by destruct Hb as [? _]. }
  assert (Hfirst : head c = default 0 ((pre ++ prev :: post) !! 0)).
  { rewrite (repr_head _ _ H). f_equal. apply first_app_cons. }
  assert (Hprevb : prev < capacity c).
  { eapply repr_slot_bounded; [done|]. apply elem_of_app. right. left. }
  assert (Hchain' : filter (λ s, s ≠ p) (pre ++ prev :: p :: post) = pre ++ prev :: post).
  { pose proof (filter_ne_split (pre ++ [prev]) post p) as E.
    rewrite <- !app_assoc in E. simpl in E. by apply E. }
  rewrite Hchain'.
  assert (Hnd' : NoDup (p :: pre ++ prev :: post)).
  { eapply NoDup_Permutation_proper; [|exact Hnd].
    change (pre ++ prev :: p :: post) with (pre ++ [prev] ++ p :: post).
    change (pre ++ prev :: post) with (pre ++ [prev] ++ post).
    rewrite !(assoc_L (++)). by rewrite Permutation_middle. }
  apply NoDup_cons in Hnd' as [Hp' Hnd'].
  assert (Hprev' : (prev ∉ pre) ∧ (prev ∉ post) ∧ (prev ≠ p)).
  { apply NoDup_app in Hnd' as (_ & Hx & Hy). apply NoDup_cons in Hy as [Hy _].
    split_and!; [|done|].
    - intros ?. eapply Hx; [done|left].
    - intros ->. apply Hp'. apply elem_of_app. right. left. }
  destruct Hprev' as (Hprev1 & Hprev2 & Hprev3).
  assert (Htail : tail c = default p (last post)).
  { rewrite (repr_tail _ _ H), last_app_cons, last_cons_cons, last_cons.
    by destruct (last post). }
  assert (Hpost : ∀ n, last post = Some n → n ≠ p).
  { intros n Hn ->. apply last_Some_elem_of in Hn. apply Hp'.
    apply elem_of_app. right. by right. }
  destruct Hst as [Hcap Hff Hbf Hfl Hbl Hfc Hbc].
  pose proof (read_bounded (forward c) (capacity c) p Hcap Hfc) as Hnextb.
  apply (repr_relink c _ (pre ++ prev :: p :: post)); try done;
    try (unfold splayOnTop; rewrite decide_False by done; case_decide; done).
  - change (pre ++ prev :: p :: post) with (pre ++ [prev] ++ p :: post).
    change (pre ++ prev :: post) with (pre ++ [prev] ++ post).
    rewrite !(assoc_L (++)). by rewrite Permutation_middle.
  - unfold splayOnTop; rewrite decide_False by done.
    split; case_decide; simpl; rewrite ?length_insert; try done;
      rewrite !(wrap_fits _ (capacity c)) by (done || lia);
      rewrite ?Hprev; repeat (apply Forall_insert; [|done]); done.
  - (* tail *)
    rewrite last_cons, last_app_cons, last_cons.
    unfold splayOnTop; rewrite decide_False by done.
    destruct (last post) as [n|] eqn:En; simpl in Htail.
    + rewrite decide_False by (rewrite Htail; by apply Hpost). simpl. done.
    + rewrite decide_True by done. simpl. done.
  - (* forward *)
    pose proof (repr_forward _ _ H) as Hf.
    assert (Hfw : ∀ a, PointerArray.cls a = PointerArray.cls (forward c) →
              length (PointerArray.elems a) = capacity c →
              fwd_linked a (pre ++ prev :: post) →
              fwd_linked (PointerArray.write a p (head c)) (p :: pre ++ prev :: post)).
    { intros a Hcls Hlen Ha. apply adjacent_cons_first.
      - intros b Hb. rewrite Hfirst, Hb. simpl.
        apply (read_write_eq a (capacity c)); [by rewrite Hcls| |lia].
        eapply repr_slot_bounded; [done|].
        rewrite first_app_cons with (ys := p :: post) in Hb. by apply first_elem_of in Hb.
      - by apply fwd_linked_write. }
    assert (Hmid : fwd_linked
              (PointerArray.write (forward c) prev (PointerArray.read (forward c) p))
              (pre ++ prev :: post)).
    { apply adjacent_app. split.
      - apply fwd_linked_write_last; [done|]. apply adjacent_app in Hf as [Hf _]. done.
      - apply adjacent_app in Hf as [_ Hf].
        destruct post as [|n post]; [done|].
        apply adjacent_cons2 in Hf as [_ Hf]. apply adjacent_cons2 in Hf as [Hn Hf].
        rewrite Hn. apply adjacent_cons2. split.
        + apply (read_write_eq _ (capacity c)); [done| |lia].
          eapply repr_slot_bounded; [done|]. apply elem_of_app. right. right. right. left.
        + apply fwd_linked_write; [|done]. done. }
    unfold splayOnTop; rewrite decide_False by done.
    case_decide; simpl; rewrite Hprev; apply Hfw; simpl; rewrite ?length_insert; done.
  - (* backward *)
    pose proof (repr_backward _ _ H) as Hb.
    assert (Hbw : ∀ a, PointerArray.cls a = PointerArray.cls (backward c) →
              length (PointerArray.elems a) = capacity c →
              bwd_linked a (pre ++ prev :: post) →
              bwd_linked (PointerArray.write a (head c) p) (p :: pre ++ prev :: post)).
    { intros a Hcls Hlen Ha. apply adjacent_cons_first.
      - intros b Hb'. rewrite Hfirst, Hb'. simpl.
        apply (read_write_eq a (capacity c)); [by rewrite Hcls|done|].
        rewrite Hlen. eapply repr_slot_bounded; [done|].
        rewrite first_app_cons with (ys := p :: post) in Hb'. by apply first_elem_of in Hb'.
      - rewrite Hfirst. by apply bwd_linked_write_head. }
    unfold splayOnTop; rewrite decide_False by done.
    case_decide as Ht; simpl; rewrite ?Hprev; apply Hbw; simpl; rewrite ?length_insert; try done.
    + (* [p] was the tail: nothing comes after it *)
      assert (post = []) as ->.
      { apply last_None. destruct (last post) as [n|] eqn:En; [|done].
        simpl in Htail. destruct (Hpost n); congruence. }
      change (pre ++ [prev; p]) with (pre ++ [prev] ++ [p]) in Hb.
      rewrite (assoc_L (++)) in Hb. by apply adjacent_prefix in Hb.
    + destruct post as [|n post].
      { by destruct Ht. }
      assert (PointerArray.read (forward c) p = n) as ->.
      { pose proof (repr_forward _ _ H) as Hf.
        apply adjacent_suffix in Hf. apply adjacent_cons2 in Hf as [_ Hf].
        apply adjacent_cons2 in Hf as [? _]. done. }
      apply NoDup_app in Hnd' as (_ & Hx & Hy).
      apply NoDup_cons in Hy as [_ Hy]. apply NoDup_cons in Hy as [Hn _].
      apply adjacent_app. split.
      * apply bwd_linked_write.
        -- intros [?| ->%list_elem_of_singleton]%elem_of_app.
           ++ eapply Hx; [done|]. right. left.
           ++ apply Hprev2. left.
        -- apply adjacent_app in Hb as [Hb _]. done.
      * apply adjacent_cons2. split.
        -- apply (read_write_eq _ (capacity c)); [done|done|].
           rewrite Hbl. eapply repr_slot_bounded; [done|].
           apply elem_of_app. right. right. right. left.
        -- apply bwd_linked_write_first; [done|].
           apply adjacent_suffix in Hb. apply adjacent_cons2 in Hb as [_ Hb].
           apply adjacent_cons2 in Hb as [_ Hb]. done.
Qed.

End Splay.

Section Store.

Context {Val : Type}.
Implicit Types (c : Cache Val) (chain : list nat).

Lemma repr_with_V c chain (p : nat) (v : Val) :
  repr c chain → repr (with_V (<[p := v]> (V c)) c) chain.
Proof.
  intros [Hst Hsz Hlen Hnd Hsl Hhd Htl Hf Hb Hidx Hcells].
  split; try done; [by apply (storage_ok_same c)|].
  simpl. intros s Hs.
  destruct (Hcells s Hs) as (k & v' & HK & HV & Hit).
  destruct (decide (s = p)) as [->|Hne].
  - exists k, v. by rewrite lookup_insert_eq.
  - exists k, v'. by rewrite lookup_insert_ne.
Qed.

(** A new key while there is room: slot [_size] is claimed and goes first. *)
Lemma repr_store_fresh c chain (k : Key) (v : Val) :
  repr c chain → items c !! ToPropertyKey k = None → _size c < capacity c →
  repr (storeKeyValue (_size c) k v (with_size (S (_size c)) c)) (_size c :: chain).
Proof.
  intros H Hk Hroom.
  pose proof (repr_head_bounded _ _ H) as Hhead.
  assert (Hfresh : _size c ∉ chain).
  { intros Hin%(repr_slots _ _ H). lia. }
  destruct H as [[Hcap Hff Hbf Hfl Hbl Hfc Hbc] Hsz Hlen Hnd Hsl Hhd Htl Hf Hb Hidx Hcells].
  split; simpl.
  - split; simpl; rewrite ?length_insert; try done;
      rewrite !(wrap_fits _ (capacity c)) by (done || lia);
      by apply Forall_insert.
  - lia.
  - by rewrite Hlen.
  - by apply NoDup_cons.
  - intros s. rewrite elem_of_cons, Hsl. lia.
  - done.
  - rewrite last_cons. rewrite Htl. destruct (last chain) as [t|] eqn:Et; [done|].
    simpl. apply last_None in Et. subst chain. simpl in Hlen. done.
  - apply adjacent_cons_first; [|by apply fwd_linked_write].
    intros b Hb'. rewrite Hhd, Hb'. simpl.
    apply (read_write_eq _ (capacity c)); [done| |lia].
    rewrite Hhd, Hb' in Hhead. done.
  - apply adjacent_cons_first.
    + intros b Hb'. rewrite Hhd, Hb'. simpl.
      apply (read_write_eq _ (capacity c)); [done|done|].
      rewrite Hhd, Hb' in Hhead. simpl in Hhead. lia.
    + rewrite Hhd. by apply bwd_linked_write_head.
  - intros name s Hs.
    destruct (decide (name = ToPropertyKey k)) as [->|Hne].
    + rewrite lookup_insert_eq in Hs. injection Hs as <-.
      split; [left|]. exists k. by rewrite lookup_insert_eq.
    + rewrite lookup_insert_ne in Hs by done.
      destruct (Hidx name s Hs) as (Hin & k' & HK & Hn).
      split; [by right|]. exists k'. rewrite lookup_insert_ne; [done|].
      intros <-. done.
  - intros s [->|Hs]%elem_of_cons.
    + exists k, v. by rewrite !lookup_insert_eq.
    + destruct (Hcells s Hs) as (k' & v' & HK & HV & Hit).
      assert (s ≠ _size c) by (intros ->; done).
      exists k', v'. rewrite !lookup_insert_ne; [done| |done|done].
      intros E. rewrite E in Hk. congruence.
Qed.

(** A new key in a full cache: the tail slot is recycled and goes first. *)
Lemma repr_store_evict c init (t : nat) (k : Key) (v : Val) :
  repr c (init ++ [t]) → _size c = capacity c →
  items c !! ToPropertyKey k = None →
  repr (storeKeyValue t k v
          (with_items (delete (property_name (K c !! t)) (items c))
             (with_tail (PointerArray.read (backward c) t) c)))
       (t :: init).
Proof.
  intros H Hfull Hk.
  pose proof (repr_head_bounded _ _ H) as Hhead.
  assert (Ht : t ∈ init ++ [t]) by (apply elem_of_app; right; left).
  pose proof (repr_slot_bounded _ _ t H Ht) as Htb.
  destruct H as [[Hcap Hff Hbf Hfl Hbl Hfc Hbc] Hsz Hlen Hnd Hsl Hhd Htl Hf Hb Hidx Hcells].
  assert (Hperm : t :: init ≡ₚ init ++ [t]).
  { by rewrite Permutation_app_comm. }
  assert (Htn : t ∉ init).
  { rewrite <- Hperm in Hnd. by apply NoDup_cons in Hnd as [? _]. }
  assert (Hndi : NoDup init).
  { rewrite <- Hperm in Hnd. by apply NoDup_cons in Hnd as [_ ?]. }
  destruct (Hcells t Ht) as (kt & vt & HKt & HVt & Hit).
  assert (Hfirst : ∀ b, init !! 0 = Some b → head c = b).
  { intros b Hb'. rewrite Hhd. destruct init; [done|]. simpl in *. congruence. }
  split; simpl.
  - split; simpl; rewrite ?length_insert; try done;
      rewrite !(wrap_fits _ (capacity c)) by (done || lia);
      by apply Forall_insert.
  - done.
  - rewrite <- Hlen, length_app. simpl. lia.
  - by rewrite Hperm.
  - intros s. rewrite Hperm. apply Hsl.
  - done.
  - rewrite last_cons.
    destruct init as [|prev init _] using rev_ind.
    + simpl in *.
      pose proof (read_bounded (backward c) (capacity c) t Hcap Hbc). lia.
    + rewrite last_snoc. simpl.
      rewrite <- (assoc_L (++)) in Hb. apply adjacent_suffix in Hb.
      apply adjacent_cons2 in Hb as [? _]. done.
  - apply adjacent_cons_first.
    + intros b Hb'. rewrite (Hfirst b Hb').
      apply (read_write_eq _ (capacity c)); [done| |lia].
      rewrite <- (Hfirst b Hb'). done.
    + apply fwd_linked_write; [done|]. by apply adjacent_prefix in Hf.
  - apply adjacent_cons_first.
    + intros b Hb'. rewrite (Hfirst b Hb').
      apply (read_write_eq _ (capacity c)); [done|done|].
      rewrite <- (Hfirst b Hb'). lia.
    + destruct init as [|b init]; [done|].
      rewrite (Hfirst b eq_refl).
      apply (bwd_linked_write_head _ _ (b :: init)); [done|].
      by apply adjacent_prefix in Hb.
  - intros name s Hs. rewrite HKt in Hs. simpl in Hs.
    destruct (decide (name = ToPropertyKey k)) as [->|Hne].
    + rewrite lookup_insert_eq in Hs. injection Hs as <-.
      split; [left|]. exists k. by rewrite lookup_insert_eq.
    + rewrite lookup_insert_ne in Hs by done.
      apply lookup_delete_Some in Hs as [Hne' Hs].
      destruct (Hidx name s Hs) as (Hin & k' & HK & Hn).
      assert (s ≠ t) by (intros ->; congruence).
      split.
      * rewrite Hperm. done.
      * exists k'. by rewrite lookup_insert_ne.
  - intros s [->|Hs]%elem_of_cons.
    + exists k, v. by rewrite !lookup_insert_eq.
    + assert (s ∈ init ++ [t]) as Hs' by (apply elem_of_app; by left).
      destruct (Hcells s Hs') as (k' & v' & HK & HV & Hit').
      assert (s ≠ t) by (intros ->; done).
      exists k', v'. rewrite HKt. simpl.
      rewrite !(lookup_insert_ne _ t) by done.
      split_and!; [done|done|].
      rewrite lookup_insert_ne by (intros E; rewrite E in Hk; congruence).
      rewrite lookup_delete_ne; [done|].
      intros E. rewrite E in Hit. congruence.
Qed.

End Store.

Section Operations.

Context {Val : Type}.
Variable StringToNumber : string → JsNumber.
Implicit Types (c : Cache Val) (chain : list nat).

(** *** The three branches of [set] and [setpop] *)

Lemma set_present c (k : Key) (v : Val) (p : nat) :
  items c !! ToPropertyKey k = Some p →
  set k v c = mkOutcome (Normal tt) [] (with_V (<[p := v]> (V c)) (splayOnTop p c)).
Proof.
  intros Hp. unfold set. rewrite Hp.
  by destruct (splayOnTop_fields c p) as (_ & _ & _ & _ & -> & _).
Qed.

Lemma set_room c (k : Key) (v : Val) :
  items c !! ToPropertyKey k = None → _size c < capacity c →
  set k v c = mkOutcome (Normal tt) []
                (storeKeyValue (_size c) k v (with_size (S (_size c)) c)).
Proof.
  intros Hk Hroom. unfold set. rewrite Hk.
  by rewrite (proj2 (Nat.ltb_lt _ _) Hroom).
Qed.

Lemma set_full c (k : Key) (v : Val) :
  items c !! ToPropertyKey k = None → ¬ _size c < capacity c →
  set k v c =
    match emit (events c) (K c !! tail c) (V c !! tail c) with
    | Throw e => mkOutcome (Throw e) [cell c (tail c)] (evict_tail c)
    | Normal _ =>
        mkOutcome (Normal tt) [cell c (tail c)]
          (storeKeyValue (tail c) k v (evict_tail c))
    end.
Proof.
  intros Hk Hfull. unfold set. rewrite Hk.
  by rewrite (proj2 (Nat.ltb_nlt _ _) Hfull).
Qed.

Lemma setpop_present c (k : Key) (v : Val) (p : nat) :
  items c !! ToPropertyKey k = Some p →
  setpop k v c = mkOutcome (Normal (Some (mkPopped false k (V c !! p)))) []
                   (with_V (<[p := v]> (V c)) (splayOnTop p c)).
Proof.
  intros Hp. unfold setpop. rewrite Hp.
  by destruct (splayOnTop_fields c p) as (_ & _ & _ & _ & -> & _).
Qed.

Lemma setpop_room c (k : Key) (v : Val) :
  items c !! ToPropertyKey k = None → _size c < capacity c →
  setpop k v c = mkOutcome (Normal None) []
                   (storeKeyValue (_size c) k v (with_size (S (_size c)) c)).
Proof.
  intros Hk Hroom. unfold setpop. rewrite Hk.
  by rewrite (proj2 (Nat.ltb_lt _ _) Hroom).
Qed.

Lemma setpop_full c (k : Key) (v : Val) :
  items c !! ToPropertyKey k = None → ¬ _size c < capacity c →
  setpop k v c =
    match emit (events c) (K c !! tail c) (V c !! tail c) with
    | Throw e => mkOutcome (Throw e) [cell c (tail c)] (evict_tail c)
    | Normal _ =>
        mkOutcome
          (Normal (match K c !! tail c with
                   | Some old => if truthy (Some old)
                                 then Some (mkPopped true old (V c !! tail c))
                                 else None
                   | None => None
                   end))
          [cell c (tail c)]
          (storeKeyValue (tail c) k v (evict_tail c))
    end.
Proof.
  intros Hk Hfull. unfold setpop. rewrite Hk.
  rewrite (proj2 (Nat.ltb_nlt _ _) Hfull).
  change (K (with_tail (PointerArray.read (backward c) (tail c)) c)) with (K c).
  change (V (with_tail (PointerArray.read (backward c) (tail c)) c)) with (V c).
  cbn [K V events items with_items with_tail]. unfold cell, evict_tail.
  destruct (emit _ _ _); [|reflexivity].
  destruct (K c !! tail c) as [old|]; [|reflexivity].
  destruct (truthy (Some old)); reflexivity.
Qed.

(** [setpop] changes the cache, and notifies, exactly as [set] does. *)
Lemma setpop_as_set c (k : Key) (v : Val) :
  after (setpop k v c) = after (set k v c)
  ∧ emitted (setpop k v c) = emitted (set k v c).
Proof.
  destruct (items c !! ToPropertyKey k) as [p|] eqn:Hk.
  - by rewrite (setpop_present _ _ _ _ Hk), (set_present _ _ _ _ Hk).
  - destruct (decide (_size c < capacity c)) as [Hroom|Hfull].
    + by rewrite (setpop_room _ _ _ Hk Hroom), (set_room _ _ _ Hk Hroom).
    + rewrite (setpop_full _ _ _ Hk Hfull), (set_full _ _ _ Hk Hfull).
      by destruct (emit _ _ _).
Qed.

(** *** The invariant along the calls *)

Lemma new_Normal_inv (v : JsValue) c :
  new StringToNumber v = Normal c →
  ∃ (n : Z) (cls : PointerArray.Class),
    (0 < n ≤ 4294967295)%Z ∧ PointerArray.getPointerArray n = Normal cls
    ∧ c = mkCache (Z.to_nat n) (PointerArray.alloc cls (Z.to_nat n))
            (PointerArray.alloc cls (Z.to_nat n)) ∅ ∅ [] 0 0 0 ∅.
Proof.
  unfold new. destruct (invalid_capacity StringToNumber v) eqn:Hv; [done|].
  apply invalid_capacity_false in Hv as (q & n & -> & Hq & Hn).
  unfold integer_of. simpl. rewrite (Qfloor_of_integer q n Hq).
  destruct (PointerArray.getPointerArray n) as [cls|] eqn:Hcls; [|done].
  unfold Array_length_ok. case_match eqn:Hlen; [|done].
  intros [= <-]. exists n, cls. split_and!; try done. lia.
Qed.

Lemma getPointerArray_fits (n : Z) (cls : PointerArray.Class) :
  (0 < n)%Z → PointerArray.getPointerArray n = Normal cls → fits cls (Z.to_nat n).
Proof.
  intros Hn. unfold PointerArray.getPointerArray, PointerArray.MAX_8BIT_INTEGER,
    PointerArray.MAX_16BIT_INTEGER, PointerArray.MAX_32BIT_INTEGER, fits.
  repeat case_match; intros [= <-]; simpl; lia.
Qed.

Lemma repr_new (v : JsValue) c : new StringToNumber v = Normal c → repr c [].
Proof.
  intros (n & cls & Hn & Hcls & ->)%new_Normal_inv.
  split; simpl; try done.
  - split; simpl; rewrite ?length_replicate; try done.
    + lia.
    + apply getPointerArray_fits; [lia|done].
    + apply getPointerArray_fits; [lia|done].
    + apply Forall_replicate. lia.
    + apply Forall_replicate. lia.
  - lia.
  - constructor.
  - intros s. split; [by intros ?%elem_of_nil|lia].
  - by intros s ?%elem_of_nil.
Qed.

Lemma repr_clear c chain : repr c chain → repr (clear c) [].
Proof.
  intros H. pose proof (repr_storage _ _ H) as Hst.
  split; simpl; try done.
  - by apply (storage_ok_same c).
  - lia.
  - constructor.
  - intros s. split; [by intros ?%elem_of_nil|lia].
  - by intros s ?%elem_of_nil.
Qed.

Lemma chain_split_last c chain :
  repr c chain → 0 < _size c → ∃ init, chain = init ++ [tail c].
Proof.
  intros H Hpos. pose proof (repr_length _ _ H) as Hlen.
  pose proof (repr_tail _ _ H) as Ht.
  destruct chain as [|t init _] using rev_ind; [simpl in Hlen; lia|].
  rewrite last_snoc in Ht. simpl in Ht. exists init. by rewrite Ht.
Qed.

Lemma repr_set c chain (k : Key) (v : Val) :
  repr c chain → result (set k v c) = Normal tt →
  repr (after (set k v c)) (set_chain c chain k).
Proof.
  intros H Hres. unfold set_chain.
  destruct (items c !! ToPropertyKey k) as [p|] eqn:Hk.
  - rewrite (set_present _ _ _ _ Hk). simpl.
    replace (V c) with (V (splayOnTop p c))
      by (by destruct (splayOnTop_fields c p) as (_ & _ & _ & _ & -> & _)).
    apply repr_with_V, repr_splayOnTop; [done|]. by eapply repr_index_slot.
  - case_decide as Hroom.
    + rewrite (set_room _ _ _ Hk Hroom). simpl. by apply repr_store_fresh.
    + rewrite (set_full _ _ _ Hk Hroom) in Hres |- *.
      destruct (emit _ _ _); [|done]. simpl.
      pose proof (repr_size _ _ H). pose proof (capacity_pos _ (repr_storage _ _ H)).
      destruct (chain_split_last c chain H) as [init ->]; [lia|].
      rewrite removelast_last. apply repr_store_evict; [done|lia|done].
Qed.

Lemma set_returns c (k : Key) (v : Val) :
  listeners_return c → result (set k v c) = Normal tt.
Proof.
  intros Hq. unfold set. repeat case_match; try done.
  rewrite Hq in *. done.
Qed.

Lemma get_state c (k : Key) :
  (get k c).2 = match items c !! ToPropertyKey k with
                | Some p => splayOnTop p c
                | None => c
                end.
Proof. unfold get. by destruct (items c !! ToPropertyKey k). Qed.

Lemma get_value c (k : Key) : (get k c).1 = peek k c.
Proof.
  unfold get, peek. destruct (items c !! ToPropertyKey k) as [p|]; [|done]. simpl.
  by destruct (splayOnTop_fields c p) as (_ & _ & _ & _ & -> & _).
Qed.

Lemma repr_get c chain (k : Key) :
  repr c chain →
  repr (get k c).2 (match items c !! ToPropertyKey k with
                    | Some p => p :: filter (λ s, s ≠ p) chain
                    | None => chain
                    end).
Proof.
  intros H. rewrite get_state.
  destruct (items c !! ToPropertyKey k) as [p|] eqn:Hk; [|done].
  apply repr_splayOnTop; [done|]. by eapply repr_index_slot.
Qed.

Lemma events_splayOnTop c (p : nat) : events (splayOnTop p c) = events c.
Proof. by destruct (splayOnTop_fields c p) as (_ & _ & _ & _ & _ & -> & _). Qed.

Lemma events_set c (k : Key) (v : Val) : events (after (set k v c)) = events c.
Proof.
  unfold set. repeat case_match; simpl; try done. apply events_splayOnTop.
Qed.

Lemma events_call (op : Call Val) c : events (call op c) = events c.
Proof.
  destruct op; simpl; try done.
  - apply events_set.
  - rewrite (proj1 (setpop_as_set _ _ _)). apply events_set.
  - rewrite get_state. case_match; [apply events_splayOnTop|done].
Qed.

Lemma wf_call (op : Call Val) c : wf c → listeners_return c → wf (call op c).
Proof.
  intros [chain H] Hq. destruct op; simpl; try (by exists chain).
  - eexists. apply repr_set; [done|]. by apply set_returns.
  - rewrite (proj1 (setpop_as_set _ _ _)).
    eexists. apply repr_set; [done|]. by apply set_returns.
  - eexists. by apply repr_get.
  - eexists. by eapply repr_clear.
Qed.

Lemma reachable_wf c : reachable StringToNumber c → wf c ∧ events c = [].
Proof.
  intros (v & c0 & ops & Hnew & ->).
  assert (wf c0 ∧ events c0 = []) as H0.
  { split; [eexists; by eapply repr_new|].
    by apply new_Normal_inv in Hnew as (? & ? & _ & _ & ->). }
  clear Hnew. revert c0 H0. unfold calls.
  induction ops as [|op ops IH]; intros c0 [Hwf Hev]; simpl; [done|].
  apply IH. split.
  - apply wf_call; [done|]. intros ? ?. by rewrite Hev.
  - by rewrite events_call.
Qed.

End Operations.

Section Iteration.

Context {Val : Type}.
Implicit Types (c : Cache Val) (chain : list nat).

(** Draining an iterator reads the walked slots, and ends on [done]: the fuel
    of [keys], [values] and [entries] is enough. *)
Lemma drain_walk {A : Type} (item : Cache Val → nat → A) c (n fuel i0 l0 p : nat) :
  l0 = i0 + n → n < fuel →
  ∃ it, drain fuel (next item c) (mkCursor i0 l0 p)
        = (item c <$> walk (forward c) n p, it)
      ∧ (next item c it).1 = None.
Proof.
  revert fuel i0 p. induction n as [|n IH]; intros fuel i0 p Hl Hfuel.
  - destruct fuel as [|fuel]; [lia|]. simpl. unfold next at 1. simpl.
    rewrite (proj2 (Nat.leb_le l0 i0)) by lia.
    eexists. split; [done|]. unfold next. simpl.
    by rewrite (proj2 (Nat.leb_le l0 i0)) by lia.
  - destruct fuel as [|fuel]; [lia|]. simpl. unfold next at 1. simpl.
    rewrite (proj2 (Nat.leb_gt l0 i0)) by lia.
    destruct n as [|n].
    + rewrite (proj2 (Nat.ltb_ge (S i0) l0)) by lia.
      destruct (IH fuel (S i0) p) as (it & -> & Hdone); [lia|lia|].
      by exists it.
    + rewrite (proj2 (Nat.ltb_lt (S i0) l0)) by lia.
      destruct (IH fuel (S i0) (PointerArray.read (forward c) p)) as (it & -> & Hdone);
        [lia|lia|].
      by exists it.
Qed.

Lemma entries_slots c : entries c = cell c <$> slots c.
Proof.
  unfold entries, entries_next, cursor, slots.
  destruct (drain_walk (λ c p, (K c !! p, V c !! p)) c (_size c) (S (_size c)) 0
              (_size c) (head c)) as (it & -> & _); [done|lia|done].
Qed.

Lemma keys_slots c : keys c = (λ s, K c !! s) <$> slots c.
Proof.
  unfold keys, keys_next, cursor, slots.
  destruct (drain_walk (λ c p, K c !! p) c (_size c) (S (_size c)) 0
              (_size c) (head c)) as (it & -> & _); [done|lia|done].
Qed.

Lemma values_slots c : values c = (λ s, V c !! s) <$> slots c.
Proof.
  unfold values, values_next, cursor, slots.
  destruct (drain_walk (λ c p, V c !! p) c (_size c) (S (_size c)) 0
              (_size c) (head c)) as (it & -> & _); [done|lia|done].
Qed.

Lemma entries_repr c chain : repr c chain → entries c = cell c <$> chain.
Proof. intros H. by rewrite entries_slots, (repr_slots_eq _ _ H). Qed.

Lemma keys_repr c chain : repr c chain → keys c = (λ s, K c !! s) <$> chain.
Proof. intros H. by rewrite keys_slots, (repr_slots_eq _ _ H). Qed.

Lemma keys_entries c : keys c = fst <$> entries c.
Proof. rewrite keys_slots, entries_slots, <- list_fmap_compose. done. Qed.

Lemma values_entries c : values c = snd <$> entries c.
Proof. rewrite values_slots, entries_slots, <- list_fmap_compose. done. Qed.

(** A key the iterators yield is filed under its own name, at the slot that
    stores it. *)
Lemma live_key_slot c chain (k : Key) :
  repr c chain → Some k ∈ keys c →
  ∃ p, items c !! ToPropertyKey k = Some p ∧ p ∈ chain ∧ K c !! p = Some k.
Proof.
  intros H Hk. rewrite (keys_repr _ _ H) in Hk.
  apply list_elem_of_fmap in Hk as (p & Hp & Hin).
  destruct (repr_cells _ _ H p Hin) as (k' & v & HK & _ & Hit).
  exists p. rewrite <- Hp in HK. injection HK as <-. done.
Qed.

End Iteration.

Lemma fmap_ext_elem_of {A B : Type} (f g : A → B) (l : list A) :
  (∀ x, x ∈ l → f x = g x) → f <$> l = g <$> l.
Proof.
  intros Hfg. apply list_fmap_ext. intros j x Hx. apply Hfg.
  by eapply list_elem_of_lookup_2.
Qed.

Lemma filter_fmap_elem_of {A B : Type} (f : A → B) (P : B → Prop) (Q : A → Prop)
    `{!∀ y, Decision (P y)} `{!∀ x, Decision (Q x)} (l : list A) :
  (∀ x, x ∈ l → P (f x) ↔ Q x) → filter P (f <$> l) = f <$> filter Q l.
Proof.
  induction l as [|x l IH]; intros HPQ; [done|].
  rewrite fmap_cons. destruct (decide (Q x)) as [Hq|Hq].
  - rewrite (filter_cons_True Q) by done.
    rewrite filter_cons_True by (apply HPQ; [left|done]).
    rewrite fmap_cons, IH; [done|]. intros y Hy. apply HPQ. by right.
  - rewrite (filter_cons_False Q) by done.
    rewrite filter_cons_False by (rewrite HPQ; [done|left]).
    apply IH. intros y Hy. apply HPQ. by right.
Qed.

Lemma removelast_fmap {A B : Type} (f : A → B) (l : list A) :
  removelast (f <$> l) = f <$> removelast l.
Proof.
  induction l as [|x l _] using rev_ind; [done|].
  rewrite fmap_app. simpl. by rewrite !removelast_last.
Qed.

Section Entries.

Context {Val : Type}.
Implicit Types (c : Cache Val) (chain : list nat).

Lemma cell_with_V_ne c (m : gmap nat Val) (v : Val) (p s : nat) :
  s ≠ p → cell (with_V (<[p := v]> m) c) s = (K c !! s, m !! s).
Proof. intros Hne. unfold cell. simpl. by rewrite lookup_insert_ne. Qed.

Lemma cell_splayOnTop c (p s : nat) : cell (splayOnTop p c) s = cell c s.
Proof.
  unfold cell. by destruct (splayOnTop_fields c p) as (_ & _ & _ & -> & -> & _).
Qed.

Lemma cell_storeKeyValue_ne c (p s : nat) (k : Key) (v : Val) :
  s ≠ p → cell (storeKeyValue p k v c) s = cell c s.
Proof. intros Hne. unfold cell. simpl. by rewrite !lookup_insert_ne. Qed.

Lemma cell_storeKeyValue c (p : nat) (k : Key) (v : Val) :
  cell (storeKeyValue p k v c) p = (Some k, Some v).
Proof. unfold cell. simpl. by rewrite !lookup_insert_eq. Qed.

(** The entries of the cache without the one at slot [p]. *)
Lemma entries_without c chain (p : nat) (k : Key) :
  repr c chain → p ∈ chain → K c !! p = Some k →
  filter (λ e, e.1 ≠ Some k) (entries c) = cell c <$> filter (λ s, s ≠ p) chain.
Proof.
  intros H Hp Hk. rewrite (entries_repr _ _ H).
  apply filter_fmap_elem_of. intros s Hs. simpl.
  destruct (repr_cells _ _ H s Hs) as (ks & _ & Hks & _ & Hs').
  destruct (repr_cells _ _ H p Hp) as (kp & _ & Hkp & _ & Hp').
  split.
  - intros Hne ->. congruence.
  - intros Hne E. rewrite Hks in E. injection E as ->.
    assert (kp = k) as -> by congruence. congruence.
Qed.

(** [set] of a key that is filed: its entry comes first, with the new value
    and the key as stored; the others keep their order. *)
Lemma entries_set_present c chain (k : Key) (v : Val) (p : nat) :
  repr c chain → items c !! ToPropertyKey k = Some p →
  entries (after (set k v c))
  = (K c !! p, Some v) :: (cell c <$> filter (λ s, s ≠ p) chain).
Proof.
  intros H Hk.
  assert (Hres : result (set k v c) = Normal tt) by by rewrite (set_present _ _ _ _ Hk).
  pose proof (repr_set c chain k v H Hres) as H'.
  rewrite (entries_repr _ _ H'). unfold set_chain. rewrite Hk.
  rewrite (set_present _ _ _ _ Hk). simpl. f_equal.
  - unfold cell. simpl. rewrite lookup_insert_eq.
    by destruct (splayOnTop_fields c p) as (_ & _ & _ & -> & _).
  - apply fmap_ext_elem_of. intros s [Hs _]%list_elem_of_filter.
    rewrite cell_with_V_ne by done.
    by destruct (splayOnTop_fields c p) as (_ & _ & _ & -> & _).
Qed.

Lemma entries_set_room c chain (k : Key) (v : Val) :
  repr c chain → items c !! ToPropertyKey k = None → _size c < capacity c →
  entries (after (set k v c)) = (Some k, Some v) :: entries c.
Proof.
  intros H Hk Hroom.
  assert (Hres : result (set k v c) = Normal tt) by by rewrite (set_room _ _ _ Hk Hroom).
  pose proof (repr_set c chain k v H Hres) as H'.
  rewrite (entries_repr _ _ H'), (entries_repr _ _ H). unfold set_chain. rewrite Hk.
  rewrite decide_True by done. rewrite (set_room _ _ _ Hk Hroom). simpl.
  rewrite cell_storeKeyValue. f_equal.
  apply fmap_ext_elem_of. intros s Hs%(repr_slots _ _ H).
  rewrite cell_storeKeyValue_ne by lia. done.
Qed.

Lemma entries_set_full c chain (k : Key) (v : Val) :
  repr c chain → items c !! ToPropertyKey k = None → ¬ _size c < capacity c →
  result (set k v c) = Normal tt →
  entries (after (set k v c)) = (Some k, Some v) :: removelast (entries c).
Proof.
  intros H Hk Hfull Hres.
  pose proof (repr_set c chain k v H Hres) as H'.
  rewrite (entries_repr _ _ H'), (entries_repr _ _ H). unfold set_chain. rewrite Hk.
  rewrite decide_False by done.
  rewrite (set_full _ _ _ Hk Hfull) in Hres |- *.
  destruct (emit _ _ _); [|done]. simpl.
  rewrite cell_storeKeyValue, removelast_fmap. f_equal.
  pose proof (repr_size _ _ H). pose proof (capacity_pos _ (repr_storage _ _ H)).
  destruct (chain_split_last c chain H) as [init ->]; [lia|].
  rewrite removelast_last.
  apply fmap_ext_elem_of. intros s Hs.
  rewrite cell_storeKeyValue_ne; [done|].
  intros ->. pose proof (repr_nodup _ _ H) as Hnd.
  apply NoDup_app in Hnd as (_ & Hnd & _). apply (Hnd _ Hs). left.
Qed.

Lemma entries_get_present c chain (k : Key) (p : nat) :
  repr c chain → items c !! ToPropertyKey k = Some p →
  entries (get k c).2 = cell c p :: (cell c <$> filter (λ s, s ≠ p) chain).
Proof.
  intros H Hk. pose proof (repr_get c chain k H) as H'.
  rewrite Hk in H'. rewrite (entries_repr _ _ H'), get_state, Hk.
  rewrite fmap_cons. f_equal; [apply cell_splayOnTop|].
  apply fmap_ext_elem_of. intros s _. apply cell_splayOnTop.
Qed.

End Entries.

(** ** The closed examples are reachable *)

Lemma fresh_new (n : nat) :
  (0 < n ≤ 256) →
  new no_strings (JsNum (Finite (inject_Z (Z.of_nat n)))) = Normal (fresh n).
Proof.
  intros Hn. unfold new.
  rewrite (invalid_capacity_integer no_strings _ (Z.of_nat n)) by (reflexivity || lia).
  change (integer_of no_strings (JsNum (Finite (inject_Z (Z.of_nat n)))))
    with (Qfloor (inject_Z (Z.of_nat n))).
  rewrite Qfloor_Z.
  unfold PointerArray.getPointerArray, PointerArray.MAX_8BIT_INTEGER, Array_length_ok.
  rewrite (proj2 (Z.leb_le _ _)) by lia.
  rewrite (proj2 (Z.leb_le _ _)) by lia.
  by rewrite Nat2Z.id.
Qed.

Lemma fresh_reachable (n : nat) (ops : list (Call nat)) :
  (0 < n ≤ 256) → reachable no_strings (calls ops (fresh n)).
Proof. intros Hn. eexists _, _, ops. split; [by apply fresh_new|done]. Qed.

Section Invariants.

Context {Val : Type}.
Variable StringToNumber : string → JsNumber.
Implicit Types (c : Cache Val) (chain : list nat).

Lemma wf_on c (cb : Handler Val) : wf c → wf (on cb c).
Proof.
  intros [chain [Hst Hsz Hlen Hnd Hsl Hhd Htl Hf Hb Hidx Hcells]].
  exists chain. split; try done. by apply (storage_ok_same c).
Qed.


End Invariants.


Section Recency.

Context {Val : Type}.
Variable StringToNumber : string → JsNumber.
Implicit Types (c : Cache Val) (chain : list nat).

Lemma has_false c (k : Key) : has k c = false ↔ items c !! ToPropertyKey k = None.
Proof.
  unfold has. rewrite bool_decide_eq_false, <- eq_None_not_Some. done.
Qed.

Lemma has_true c (k : Key) : has k c = true ↔ ∃ p, items c !! ToPropertyKey k = Some p.
Proof. unfold has. by rewrite bool_decide_eq_true. Qed.



End Recency.

Lemma sample_reachable : reachable no_strings sample.
Proof. apply fresh_reachable. lia. Qed.



Section Capacity.

Context {Val : Type}.
Variable StringToNumber : string → JsNumber.
Implicit Types (c : Cache Val) (chain : list nat).

(** Claim C6.  The constructor throws the invalid-capacity error, and so
    yields no cache, for every argument that is not a finite positive
    integer, among them [undefined], an object, a string, [null], a negative
    number, zero, a fraction, the infinities, [NaN] and the booleans; it
    yields an empty cache of that capacity for every positive integer up to
    2^32 - 1. *)
Theorem constructor_capacity :
  (∀ v, ¬ finite_positive_integer v →
        new (Val:=Val) StringToNumber v = Throw InvalidCapacityError)
  ∧ Forall (λ v, new (Val:=Val) StringToNumber v = Throw InvalidCapacityError)
      [JsUndefined; JsObject NaN; JsString "3"; JsNull; JsNum (Finite (-1));
       JsNum (Finite 0); JsNum (Finite (101 # 100)); JsNum PosInfinity;
       JsNum NegInfinity; JsNum NaN; JsBoolean true; JsBoolean false]
  ∧ (∀ (q : Q) (n : Z), Qeq q (inject_Z n) → (0 < n ≤ 4294967295)%Z →
       ∃ c : Cache Val, new StringToNumber (JsNum (Finite q)) = Normal c
         ∧ capacity c = Z.to_nat n ∧ _size c = 0 ∧ entries c = []).
Proof.
  split_and!.
  - apply new_rejects.
  - repeat (constructor; [|]); [..|constructor];
      apply new_rejects; intros (q & n & Hv & Hq & Hn); try discriminate;
      injection Hv as <-.
    + apply Qeq_bool_iff in Hq. vm_compute in Hq.
      destruct n as [|n|n]; try lia; discriminate.
    + apply Qeq_bool_iff in Hq. vm_compute in Hq.
      destruct n as [|n|n]; try lia; discriminate.
    + unfold Qeq in Hq. simpl in Hq. lia.
  - intros q n Hq Hn.
    destruct (new_accepts (Val:=Val) StringToNumber q n Hq Hn)
      as (c & Hc & Hcap & Hsz & _).
    exists c. split_and!; try done.
    unfold entries. rewrite Hsz. simpl. unfold entries_next, next, cursor. simpl.
    by rewrite Hsz.
Qed.

(** X13.  Past that range the constructor throws as well: for the integer
    2^32 the selector still returns the 32-bit class and the array
    constructor refuses the length, and from 2^32 + 1 on the selector
    throws the unsupported-capacity error. *)
Lemma new_beyond_range (q : Q) (n : Z) :
  Qeq q (inject_Z n) → (4294967295 < n)%Z →
  new (Val:=Val) StringToNumber (JsNum (Finite q))
  = Throw (if (n =? 4294967296)%Z then RangeError else CapacityUnsupportedError).
Proof.
  intros Hq Hn. unfold new.
  rewrite (invalid_capacity_integer StringToNumber q n Hq) by lia.
  change (integer_of StringToNumber (JsNum (Finite q))) with (Qfloor q).
  rewrite (Qfloor_of_integer q n Hq).
  unfold PointerArray.getPointerArray, PointerArray.MAX_8BIT_INTEGER,
    PointerArray.MAX_16BIT_INTEGER, PointerArray.MAX_32BIT_INTEGER, Array_length_ok.
  rewrite (proj2 (Z.leb_gt (n - 1) _)) by lia.
  rewrite (proj2 (Z.leb_gt (n - 1) _)) by lia.
  destruct (Z.eqb_spec n 4294967296) as [->|Hne]; [done|].
  by rewrite (proj2 (Z.leb_gt (n - 1) _)) by lia.
Qed.

End Capacity.

Lemma constructor_capacity_witness :
  ¬ finite_positive_integer (JsBoolean true)
  ∧ new (Val:=nat) no_strings (JsBoolean true) = Throw InvalidCapacityError
  ∧ Qeq 3 (inject_Z 3) ∧ (0 < 3 ≤ 4294967295)%Z
  ∧ ∃ c : Cache nat, new no_strings (JsNum (Finite 3)) = Normal c
      ∧ capacity c = 3 ∧ _size c = 0 ∧ entries c = [].
Proof.
  assert (H1 : ¬ finite_positive_integer (JsBoolean true)).
  { intros (q & n & Hv & _). discriminate. }
  assert (H2 : (0 < 3 ≤ 4294967295)%Z) by lia.
  destruct (constructor_capacity (Val:=nat) no_strings) as (Hrej & _ & Hacc).
  split; [exact H1|]. split; [exact (Hrej _ H1)|].
  split; [reflexivity|]. split; [exact H2|].
  exact (Hacc 3%Q 3%Z (Qeq_refl _) H2).
Defined.

(** ** The class of the pointer arrays *)

Lemma write_retyped (a : PointerArray.t) (cls : PointerArray.Class) (n i v : nat) :
  fits (PointerArray.cls a) n → fits cls n → v < n →
  PointerArray.write (PointerArray.make cls (PointerArray.elems a)) i v
  = PointerArray.make cls (PointerArray.elems (PointerArray.write a i v)).
Proof.
  intros Ha Hcls Hv. unfold PointerArray.write. simpl.
  by rewrite !(wrap_fits _ n).
Qed.

Section Retyping.

Context {Val : Type}.
Implicit Types (c : Cache Val) (chain : list nat).

Lemma repr_tail_bounded c chain : repr c chain → tail c < capacity c.
Proof.
  intros H. rewrite (repr_tail _ _ H).
  destruct (last chain) as [t|] eqn:E; simpl.
  - eapply repr_slot_bounded; [done|]. by apply last_Some_elem_of.
  - apply (capacity_pos _ (repr_storage _ _ H)).
Qed.

Lemma retype_splayOnTop c (cls : PointerArray.Class) (p : nat) :
  storage_ok c → head c < capacity c → p < capacity c → fits cls (capacity c) →
  splayOnTop p (retype cls c) = retype cls (splayOnTop p c).
Proof.
  intros Hst Hhd Hp Hcls.
  pose proof (forward_read_bounded c p Hst) as Hn.
  pose proof (backward_read_bounded c p Hst) as Hb.
  destruct Hst as [Hcap Hff Hbf Hfl Hbl Hfc Hbc].
  unfold splayOnTop, retype. simpl. unfold PointerArray.write, PointerArray.read in *.
  simpl. repeat case_decide; simpl; try done;
    rewrite ?(wrap_fits cls (capacity c)),
      ?(wrap_fits (PointerArray.cls (forward c)) (capacity c)),
      ?(wrap_fits (PointerArray.cls (backward c)) (capacity c)) by done; done.
Qed.

Lemma retype_storeKeyValue c (cls : PointerArray.Class) (p : nat) (k : Key) (v : Val) :
  storage_ok c → head c < capacity c → p < capacity c → fits cls (capacity c) →
  storeKeyValue p k v (retype cls c) = retype cls (storeKeyValue p k v c).
Proof.
  intros [Hcap Hff Hbf Hfl Hbl Hfc Hbc] Hhd Hp Hcls.
  unfold storeKeyValue, retype. simpl. unfold PointerArray.write. simpl.
  rewrite ?(wrap_fits cls (capacity c)),
    ?(wrap_fits (PointerArray.cls (forward c)) (capacity c)),
    ?(wrap_fits (PointerArray.cls (backward c)) (capacity c)) by done; done.
Qed.

Lemma retype_set c chain (cls : PointerArray.Class) (k : Key) (v : Val) :
  repr c chain → fits cls (capacity c) →
  set k v (retype cls c)
  = mkOutcome (result (set k v c)) (emitted (set k v c)) (retype cls (after (set k v c))).
Proof.
  intros H Hcls.
  pose proof (repr_storage _ _ H) as Hst.
  pose proof (repr_head_bounded _ _ H) as Hhd.
  pose proof (repr_tail_bounded _ _ H) as Htl.
  pose proof (repr_size _ _ H) as Hsz.
  unfold set. change (items (retype cls c)) with (items c).
  destruct (items c !! ToPropertyKey k) as [p|] eqn:Hk.
  - rewrite retype_splayOnTop; try done.
    eapply repr_slot_bounded; [done|]. by eapply repr_index_slot.
  - change (_size (retype cls c)) with (_size c).
    change (capacity (retype cls c)) with (capacity c).
    destruct (_size c <? capacity c) eqn:Hroom.
    + apply Nat.ltb_lt in Hroom. simpl.
      f_equal. apply (retype_storeKeyValue (with_size (S (_size c)) c)); try done.
      by apply (storage_ok_same c).
    + change (events (with_items _ (with_tail _ (retype cls c)))) with (events c).
      change (K (with_items _ (with_tail _ (retype cls c)))) with (K c).
      change (V (with_items _ (with_tail _ (retype cls c)))) with (V c).
      change (tail (retype cls c)) with (tail c).
      cbn [events K V with_items with_tail].
      destruct (emit (events c) (K c !! tail c) (V c !! tail c)); simpl; [|done].
      f_equal.
      apply (retype_storeKeyValue
               (with_items _ (with_tail (PointerArray.read (backward c) (tail c)) c)));
        try done.
      by apply (storage_ok_same c).
Qed.

Lemma retype_get c chain (cls : PointerArray.Class) (k : Key) :
  repr c chain → fits cls (capacity c) →
  get k (retype cls c) = ((get k c).1, retype cls (get k c).2).
Proof.
  intros H Hcls. unfold get. change (items (retype cls c)) with (items c).
  destruct (items c !! ToPropertyKey k) as [p|] eqn:Hk; [|done].
  rewrite retype_splayOnTop; try done.
  - apply (repr_storage _ _ H).
  - by eapply repr_head_bounded.
  - eapply repr_slot_bounded; [done|]. by eapply repr_index_slot.
Qed.

Lemma retype_setpop c chain (cls : PointerArray.Class) (k : Key) (v : Val) :
  repr c chain → fits cls (capacity c) →
  setpop k v (retype cls c)
  = mkOutcome (result (setpop k v c)) (emitted (setpop k v c))
      (retype cls (after (setpop k v c))).
Proof.
  intros H Hcls.
  pose proof (repr_storage _ _ H) as Hst.
  pose proof (repr_head_bounded _ _ H) as Hhd.
  pose proof (repr_tail_bounded _ _ H) as Htl.
  destruct (items c !! ToPropertyKey k) as [p|] eqn:Hk.
  - rewrite (setpop_present (retype cls c) k v p Hk), (setpop_present c k v p Hk).
    simpl. rewrite retype_splayOnTop; try done.
    eapply repr_slot_bounded; [done|]. by eapply repr_index_slot.
  - destruct (decide (_size c < capacity c)) as [Hroom|Hfull].
    + rewrite (setpop_room (retype cls c) k v Hk Hroom), (setpop_room c k v Hk Hroom).
      simpl. f_equal.
      apply (retype_storeKeyValue (with_size (S (_size c)) c)); try done.
      by apply (storage_ok_same c).
    + rewrite (setpop_full (retype cls c) k v Hk Hfull), (setpop_full c k v Hk Hfull).
      change (events (retype cls c)) with (events c).
      change (K (retype cls c)) with (K c). change (V (retype cls c)) with (V c).
      change (tail (retype cls c)) with (tail c).
      destruct (emit (events c) (K c !! tail c) (V c !! tail c)); simpl; [|done].
      f_equal. apply (retype_storeKeyValue (evict_tail c)); try done.
      by apply (storage_ok_same c).
Qed.

(** One call on the cache over another class that is wide enough: the same
    answer, and the same cache up to the class. *)
Lemma retype_call c (cls : PointerArray.Class) (op : Call Val) :
  wf c → fits cls (capacity c) →
  call op (retype cls c) = retype cls (call op c)
  ∧ answer op (retype cls c) = answer op c.
Proof.
  intros [chain H] Hcls. destruct op; simpl; try done.
  - by rewrite (retype_set c chain).
  - by rewrite (retype_setpop c chain).
  - by rewrite (retype_get c chain).
Qed.

Lemma wf_retype c (cls : PointerArray.Class) :
  wf c → fits cls (capacity c) → wf (retype cls c).
Proof.
  intros [chain [[Hcap Hff Hbf Hfl Hbl Hfc Hbc] Hsz Hlen Hnd Hsl Hhd Htl Hf Hb Hidx Hcells]] Hcls.
  exists chain. split; try done.
Qed.

Lemma capacity_set c (k : Key) (v : Val) : capacity (after (set k v c)) = capacity c.
Proof.
  unfold set. destruct (items c !! ToPropertyKey k) as [p|]; simpl.
  - by destruct (splayOnTop_fields c p) as (-> & _).
  - repeat case_match; done.
Qed.

Lemma capacity_call (op : Call Val) c : capacity (call op c) = capacity c.
Proof.
  destruct op as [k v|k v|k| | | | | |]; simpl; try done.
  - apply capacity_set.
  - rewrite (proj1 (setpop_as_set _ _ _)). apply capacity_set.
  - rewrite get_state. destruct (items c !! ToPropertyKey k) as [p|]; [|done].
    by destruct (splayOnTop_fields c p) as (-> & _).
Qed.

Lemma retype_calls c (cls : PointerArray.Class) (ops : list (Call Val)) :
  wf c → events c = [] → fits cls (capacity c) →
  calls ops (retype cls c) = retype cls (calls ops c)
  ∧ wf (calls ops c) ∧ capacity (calls ops c) = capacity c.
Proof.
  unfold calls. revert c. induction ops as [|op ops IH]; intros c Hwf Hev Hcls; simpl.
  - done.
  - rewrite (proj1 (retype_call c cls op Hwf Hcls)).
    destruct (IH (call op c)) as (-> & Hwf' & Hcap).
    + apply wf_call; [done|]. intros ? ?. by rewrite Hev.
    + by rewrite events_call.
    + by rewrite capacity_call.
    + split_and!; try done. by rewrite Hcap, capacity_call.
Qed.

End Retyping.

(** ** Reads of the pointer arrays stay inside them

    The calls read [backward] at [tail] and at a slot found in the index, and
    [forward] at such a slot and along the chain of the iterators; in a
    well-formed cache these are indices of the arrays, where
    [PointerArray.read] is the read of JavaScript. *)

Section Bounds.

Context {Val : Type}.
Implicit Types (c : Cache Val).

Lemma reads_in_bounds c :
  wf c →
  tail c < length (PointerArray.elems (backward c))
  ∧ head c < length (PointerArray.elems (forward c))
  ∧ (∀ name p, items c !! name = Some p →
       p < length (PointerArray.elems (forward c))
       ∧ p < length (PointerArray.elems (backward c)))
  ∧ (∀ s, s ∈ slots c → s < length (PointerArray.elems (forward c))).
Proof.
  intros [chain H].
  pose proof (repr_storage _ _ H) as [_ _ _ Hfl Hbl _ _].
  rewrite Hfl, Hbl, (repr_slots_eq _ _ H). split_and!.
  - by eapply repr_tail_bounded.
  - by eapply repr_head_bounded.
  - intros name p Hp. apply (repr_index_slot _ _ _ _ H) in Hp.
    split; by eapply repr_slot_bounded.
  - intros s Hs. by eapply repr_slot_bounded.
Qed.

End Bounds.

Section Selector.

Context {Val : Type}.
Variable StringToNumber : string → JsNumber.

Lemma new_capacity (v : JsValue) (c : Cache Val) :
  new StringToNumber v = Normal c →
  capacity c = Z.to_nat (integer_of StringToNumber v).
Proof. unfold new. repeat case_match; try done. by intros [= <-]. Qed.

Lemma new_calls_retype (v : JsValue) (c0 : Cache Val) (cls : PointerArray.Class)
    (ops : list (Call Val)) (op : Call Val) :
  new StringToNumber v = Normal c0 → fits cls (capacity c0) →
  calls ops (retype cls c0) = retype cls (calls ops c0)
  ∧ answer op (calls ops (retype cls c0)) = answer op (calls ops c0).
Proof.
  intros Hnew Hcls.
  assert (Hwf : wf c0) by (eexists; by eapply repr_new).
  assert (Hev : events c0 = []).
  { by apply new_Normal_inv in Hnew as (? & ? & _ & _ & ->). }
  destruct (retype_calls c0 cls ops Hwf Hev Hcls) as (-> & Hwf' & Hcap).
  split; [done|]. apply retype_call; [done|]. by rewrite Hcap.
Qed.

(** Claim C8.  For a positive integer capacity the selector returns the
    8-bit class when [capacity - 1] is at most 255, else the 16-bit class when
    it is at most 65535, else the 32-bit class when it is at most 4294967295,
    and throws the unsupported-capacity error exactly when [capacity - 1]
    exceeds 4294967295; the class it returns stores every slot of the cache
    without loss, and over any class that does so a cache constructed with
    this capacity goes through the same states, up to the class, and gives the
    same answers. *)
Theorem slot_width (capacity : Z) :
  (0 < capacity)%Z →
  ((capacity - 1 ≤ 255)%Z →
     PointerArray.getPointerArray capacity = Normal PointerArray.Uint8Array)
  ∧ ((255 < capacity - 1 ≤ 65535)%Z →
       PointerArray.getPointerArray capacity = Normal PointerArray.Uint16Array)
  ∧ ((65535 < capacity - 1 ≤ 4294967295)%Z →
       PointerArray.getPointerArray capacity = Normal PointerArray.Uint32Array)
  ∧ (PointerArray.getPointerArray capacity = Throw CapacityUnsupportedError
     ↔ (4294967295 < capacity - 1)%Z)
  ∧ (∀ cls, PointerArray.getPointerArray capacity = Normal cls →
            fits cls (Z.to_nat capacity))
  ∧ (∀ (c0 : Cache Val) (cls : PointerArray.Class) (ops : list (Call Val)) (op : Call Val),
       new StringToNumber (JsNum (Finite (inject_Z capacity))) = Normal c0 →
       fits cls (Z.to_nat capacity) →
       calls ops (retype cls c0) = retype cls (calls ops c0)
       ∧ answer op (calls ops (retype cls c0)) = answer op (calls ops c0)).
Proof.
  intros Hpos. split_and!.
  - intros H. unfold PointerArray.getPointerArray.
    by rewrite (proj2 (Z.leb_le _ _)) by (unfold PointerArray.MAX_8BIT_INTEGER; lia).
  - intros H. unfold PointerArray.getPointerArray.
    rewrite (proj2 (Z.leb_gt _ _)) by (unfold PointerArray.MAX_8BIT_INTEGER; lia).
    by rewrite (proj2 (Z.leb_le _ _)) by (unfold PointerArray.MAX_16BIT_INTEGER; lia).
  - intros H. unfold PointerArray.getPointerArray.
    rewrite (proj2 (Z.leb_gt _ _)) by (unfold PointerArray.MAX_8BIT_INTEGER; lia).
    rewrite (proj2 (Z.leb_gt _ _)) by (unfold PointerArray.MAX_16BIT_INTEGER; lia).
    by rewrite (proj2 (Z.leb_le _ _)) by (unfold PointerArray.MAX_32BIT_INTEGER; lia).
  - unfold PointerArray.getPointerArray, PointerArray.MAX_8BIT_INTEGER,
      PointerArray.MAX_16BIT_INTEGER, PointerArray.MAX_32BIT_INTEGER.
    split.
    + repeat case_match; try done. intros _. lia.
    + intros H. by rewrite !(proj2 (Z.leb_gt (capacity - 1) _)) by lia.
  - intros cls. by apply getPointerArray_fits.
  - intros c0 cls ops op Hnew Hcls.
    apply (new_calls_retype _ _ _ _ _ Hnew).
    rewrite (new_capacity _ _ Hnew).
    change (integer_of StringToNumber (JsNum (Finite (inject_Z capacity))))
      with (Qfloor (inject_Z capacity)).
    by rewrite Qfloor_Z.
Qed.

End Selector.

Lemma slot_width_witness :
  (0 < 300)%Z ∧ (255 < 300 - 1 ≤ 65535)%Z
  ∧ PointerArray.getPointerArray 300 = Normal PointerArray.Uint16Array
  ∧ fits PointerArray.Uint16Array (Z.to_nat 300).
Proof.
  assert (H0 : (0 < 300)%Z) by lia.
  assert (H1 : (255 < 300 - 1 ≤ 65535)%Z) by lia.
  destruct (slot_width (Val:=nat) no_strings 300 H0) as (_ & H16 & _ & _ & Hfit & _).
  split; [exact H0|]. split; [exact H1|]. split; [exact (H16 H1)|].
  exact (Hfit _ (H16 H1)).
Defined.

(** ** What [setpop] returns *)

Section Setpop.

Context {Val : Type}.
Implicit Types (c : Cache Val) (chain : list nat).

(** The outcome of a [setpop] that returns, on a well-formed cache.  The
    third case is decided by the truthiness of the evicted key. *)
Lemma setpop_outcome c (k : Key) (v : Val) :
  wf c → listeners_return c →
  match items c !! ToPropertyKey k with
  | Some p =>
      result (setpop k v c) = Normal (Some (mkPopped false k (V c !! p)))
  | None =>
      if decide (_size c < capacity c) then result (setpop k v c) = Normal None
      else ∃ old, K c !! tail c = Some old ∧
             result (setpop k v c)
             = Normal (if truthy (Some old)
                       then Some (mkPopped true old (V c !! tail c))
                       else None)
  end.
Proof.
  intros [chain H] Hq.
  destruct (items c !! ToPropertyKey k) as [p|] eqn:Hk.
  - by rewrite (setpop_present _ _ _ _ Hk).
  - case_decide as Hroom.
    + by rewrite (setpop_room _ _ _ Hk Hroom).
    + rewrite (setpop_full _ _ _ Hk Hroom), Hq. simpl.
      pose proof (repr_size _ _ H). pose proof (capacity_pos _ (repr_storage _ _ H)).
      destruct (chain_split_last c chain H) as [init Hchain]; [lia|].
      assert (Ht : tail c ∈ chain) by (rewrite Hchain; apply elem_of_app; right; left).
      destruct (repr_cells _ _ H _ Ht) as (old & lv & HK & _).
      exists old. by rewrite HK.
Qed.

End Setpop.

(** Claim C1, at the input where the code departs from it: the cache of
    capacity 1 holds the key 0; [setpop(1, 8)] finds the key new and the cache
    full, evicts the key 0 and notifies the eviction, and returns [null]. *)
Theorem setpop_evicts_falsy_key_silently :
  has (KNum 1) sample_zero = false
  ∧ _size sample_zero = capacity sample_zero
  ∧ entries sample_zero = [(Some (KNum 0), Some 7)]
  ∧ result (setpop (KNum 1) 8 sample_zero) = Normal None
  ∧ emitted (setpop (KNum 1) 8 sample_zero) = [(Some (KNum 0), Some 7)]
  ∧ has (KNum 0) (after (setpop (KNum 1) 8 sample_zero)) = false
  ∧ entries (after (setpop (KNum 1) 8 sample_zero)) = [(Some (KNum 1), Some 8)].
Proof. vm_compute. repeat split. Qed.

(** The same with the empty string as the evicted key. *)
Lemma setpop_evicts_empty_string_silently :
  let c := calls [CallSet (KStr EmptyString) 7] (fresh 1) in
  result (setpop (KStr "a") 8 c) = Normal None
  ∧ emitted (setpop (KStr "a") 8 c) = [(Some (KStr EmptyString), Some 7)].
Proof. vm_compute. repeat split. Qed.

(** A truthy key in the same place is reported. *)
Lemma setpop_reports_truthy_key :
  let c := calls [CallSet (KNum 5) 7] (fresh 1) in
  result (setpop (KNum 1) 8 c) = Normal (Some (mkPopped true (KNum 5) (Some 7))).
Proof. vm_compute. repeat split. Qed.

(** ** A listener that throws *)

Section Listeners.

Context {Val : Type}.
Implicit Types (c : Cache Val) (chain : list nat).


End Listeners.

Lemma loud_wf : wf loud.
Proof.
  apply wf_on. apply (reachable_wf no_strings). apply fresh_reachable. lia.
Qed.



(** ** Keys are told apart by their property names *)

Section Names.

Context {Val : Type}.
Implicit Types (c : Cache Val) (chain : list nat).

Lemma peek_after_set c (k1 k2 : Key) (v : Val) :
  ToPropertyKey k1 = ToPropertyKey k2 → result (set k1 v c) = Normal tt →
  peek k2 (after (set k1 v c)) = Some v.
Proof.
  intros Hn. unfold peek. rewrite <- Hn. clear Hn. unfold set.
  destruct (items c !! ToPropertyKey k1) as [p|] eqn:Hk; simpl.
  - intros _. destruct (splayOnTop_fields c p) as (_ & _ & -> & _).
    by rewrite Hk, lookup_insert_eq.
  - destruct (_size c <? capacity c); simpl.
    + intros _. by rewrite !lookup_insert_eq.
    + destruct (emit _ _ _); simpl; [|done].
      intros _. by rewrite !lookup_insert_eq.
Qed.


End Names.

Lemma sample_twin_wf : wf sample_twin.
Proof. apply (reachable_wf no_strings). apply fresh_reachable. lia. Qed.



(** ** [from] *)

Section MostRecentFirst.

Context {Val : Type}.
Implicit Types (ps M : list (Key * Val)) (k : Key) (v : Val).

Lemma most_recent_first_keys ps k : k ∈ (most_recent_first ps).*1 ↔ k ∈ ps.*1.
Proof.
  induction ps as [|[k0 v0] ps IH]; [done|]. simpl.
  case_bool_decide as Hin.
  - rewrite IH, elem_of_cons. split; [by right|]. by intros [->|?].
  - rewrite fmap_app, elem_of_app, IH, elem_of_cons. simpl.
    rewrite list_elem_of_singleton. tauto.
Qed.

Lemma most_recent_first_NoDup ps : NoDup (most_recent_first ps).*1.
Proof.
  induction ps as [|[k0 v0] ps IH]; simpl; [constructor|].
  case_bool_decide as Hin; [done|].
  rewrite fmap_app. apply NoDup_app. split_and!; [done| |apply NoDup_singleton].
  intros k Hk ->%list_elem_of_singleton. apply Hin. by apply most_recent_first_keys.
Qed.

(** One more pair at the end: it comes first, and an earlier pair of its key
    is dropped. *)
Lemma most_recent_first_snoc ps k v :
  most_recent_first (ps ++ [(k, v)])
  = (k, v) :: filter (λ kv, kv.1 ≠ k) (most_recent_first ps).
Proof.
  induction ps as [|[k0 v0] ps IH]; [done|].
  simpl. rewrite IH. rewrite fmap_app. simpl.
  destruct (decide (k0 = k)) as [->|Hne].
  - rewrite bool_decide_eq_true_2 by (apply elem_of_app; right; left).
    case_bool_decide; [done|].
    rewrite filter_app, filter_cons_False by (simpl; intros ?; done).
    by rewrite filter_nil, app_nil_r.
  - case_bool_decide as Hin.
    + rewrite bool_decide_eq_true_2; [done|].
      apply elem_of_app in Hin as [?|?%list_elem_of_singleton]; done.
    + rewrite bool_decide_eq_false_2.
      * rewrite filter_app, filter_cons_True by done. done.
      * intros ?. apply Hin. apply elem_of_app. by left.
Qed.

Lemma elem_of_take_elem_of {A : Type} (x : A) (n : nat) (l : list A) :
  x ∈ take n l → x ∈ l.
Proof. intros H. rewrite <- (take_drop n l). apply elem_of_app. by left. Qed.

Lemma take_filter_all (P : Key * Val → Prop) `{!∀ x, Decision (P x)} M (n : nat) :
  (∀ x, x ∈ take n M → P x) → take n (filter P M) = take n M.
Proof.
  revert n. induction M as [|x M IH]; intros n HP; [done|].
  destruct n as [|n]; [done|]. simpl in HP.
  rewrite filter_cons_True by (apply HP; left). simpl. f_equal.
  apply IH. intros y Hy. apply HP. by right.
Qed.

Lemma take_filter_hit M k (n : nat) :
  NoDup M.*1 → k ∈ (take n M).*1 →
  filter (λ kv, kv.1 ≠ k) (take n M) = take (n - 1) (filter (λ kv, kv.1 ≠ k) M).
Proof.
  revert n. induction M as [|[k0 v0] M IH]; intros n Hnd Hk.
  { rewrite take_nil in Hk. by apply elem_of_nil in Hk. }
  destruct n as [|n]; [by apply elem_of_nil in Hk|].
  simpl in Hnd. apply NoDup_cons in Hnd as [Hk0 Hnd].
  simpl. rewrite Nat.sub_0_r. simpl in Hk. apply elem_of_cons in Hk as [->|Hk].
  - rewrite !filter_cons_False by (simpl; intros ?; done).
    rewrite take_filter_all, filter_all; [done| |].
    + intros [k' v'] Hin. simpl. intros ->. apply Hk0.
      apply list_elem_of_fmap. exists (k0, v'). split; [done|].
      by eapply elem_of_take_elem_of.
    + intros [k' v'] Hin. simpl. intros ->. apply Hk0.
      apply list_elem_of_fmap. exists (k0, v'). split; [done|].
      by eapply elem_of_take_elem_of.
  - assert (k0 ≠ k).
    { intros ->. apply Hk0. apply list_elem_of_fmap in Hk as ([k' v'] & -> & Hin).
      apply list_elem_of_fmap. exists (k', v'). split; [done|].
      by eapply elem_of_take_elem_of. }
    rewrite !filter_cons_True by done.
    rewrite (IH n Hnd Hk).
    destruct n as [|n]; [by apply elem_of_nil in Hk|]. simpl. by rewrite Nat.sub_0_r.
Qed.

Lemma yielded_keys ps : (yielded ps).*1 = Some <$> ps.*1.
Proof. unfold yielded. rewrite <- !list_fmap_compose. done. Qed.

Lemma yielded_filter ps k :
  filter (λ e, e.1 ≠ Some k) (yielded ps) = yielded (filter (λ kv, kv.1 ≠ k) ps).
Proof.
  unfold yielded. apply filter_fmap_elem_of. intros [k' v'] _. simpl.
  split; [intros H ->; done|intros H [= ->]; done].
Qed.

End MostRecentFirst.

Section From.

Context {Val : Type}.
Variable StringToNumber : string → JsNumber.
Implicit Types (c : Cache Val) (ps M : list (Key * Val)) (k : Key) (v : Val).

Lemma keys_yielded c M k :
  entries c = yielded M → Some k ∈ keys c ↔ k ∈ M.*1.
Proof.
  intros HM. rewrite keys_entries, HM, yielded_keys.
  rewrite list_elem_of_fmap. split.
  - by intros (k' & [= ->] & ?).
  - intros ?. by exists k.
Qed.

(** One round of the loop of [from], on the list of entries. *)
Lemma set_step c M k v :
  wf c → listeners_return c → NoDup M.*1 →
  (∀ k', k' ∈ M.*1 → ToPropertyKey k' = ToPropertyKey k → k' = k) →
  entries c = yielded (take (capacity c) M) →
  entries (after (set k v c))
  = yielded (take (capacity c) ((k, v) :: filter (λ kv, kv.1 ≠ k) M)).
Proof.
  intros [chain H] Hq Hnd Hnames HM.
  pose proof (capacity_pos _ (repr_storage _ _ H)) as Hcap.
  pose proof (repr_size _ _ H) as Hsz.
  assert (Hlen : length (take (capacity c) M) = _size c).
  { rewrite <- (repr_length _ _ H).
    rewrite <- (length_fmap (cell c) chain), <- (entries_repr _ _ H), HM.
    unfold yielded. by rewrite length_fmap. }
  destruct (capacity c) as [|n] eqn:Ecap; [lia|].
  change (take (S n) ((k, v) :: filter (λ kv, kv.1 ≠ k) M))
    with ((k, v) :: take n (filter (λ kv, kv.1 ≠ k) M)).
  change (yielded ((k, v) :: take n (filter (λ kv, kv.1 ≠ k) M)))
    with ((Some k, Some v) :: yielded (take n (filter (λ kv, kv.1 ≠ k) M))).
  destruct (items c !! ToPropertyKey k) as [p|] eqn:Hk.
  - (* the key is filed *)
    destruct (repr_index _ _ H _ _ Hk) as (Hp & k' & HK & Hn).
    assert (Hlive : Some k' ∈ keys c).
    { rewrite (keys_repr _ _ H). apply list_elem_of_fmap. by exists p. }
    apply (keys_yielded c _ k' HM) in Hlive.
    assert (k' = k) as ->.
    { apply Hnames; [|done].
      apply list_elem_of_fmap in Hlive as (kv & -> & Hin).
      apply list_elem_of_fmap. exists kv. split; [done|].
      by eapply elem_of_take_elem_of. }
    rewrite (entries_set_present c chain k v p H Hk), HK.
    rewrite <- (entries_without c chain p k H Hp HK), HM, yielded_filter.
    rewrite (take_filter_hit M k (S n) Hnd Hlive). simpl. by rewrite Nat.sub_0_r.
  - (* the key is new *)
    assert (Hnew : k ∉ (take (S n) M).*1).
    { intros Hin%(keys_yielded c _ k HM).
      destruct (live_key_slot c chain k H Hin) as (p & ? & _). congruence. }
    assert (Hkeep : take n (filter (λ kv, kv.1 ≠ k) M) = take n M).
    { apply take_filter_all. intros [k' v'] Hin. simpl. intros ->. apply Hnew.
      apply list_elem_of_fmap. exists (k, v'). split; [done|].
      apply elem_of_take in Hin as (j & Hj & ?). apply elem_of_take. exists j.
      split; [done|lia]. }
    rewrite Hkeep.
    destruct (decide (_size c < capacity c)) as [Hroom|Hfull].
    + rewrite (entries_set_room c chain k v H Hk Hroom), HM. f_equal.
      rewrite Ecap in Hroom. rewrite length_take in Hlen.
      rewrite !take_ge by lia. done.
    + rewrite (entries_set_full c chain k v H Hk Hfull (set_returns c k v Hq)), HM.
      f_equal. unfold yielded. rewrite removelast_fmap. f_equal.
      rewrite Ecap in Hfull. rewrite length_take in Hlen.
      apply removelast_firstn. lia.
Qed.

Lemma wf_set c k v : wf c → listeners_return c → wf (after (set k v c)).
Proof. intros Hwf Hq. by apply (wf_call (CallSet k v)). Qed.

(** The loop of [from] on a cache without listeners: it runs to its end,
    and the entries are those of the pairs seen so far. *)
Lemma set_each_entries ps : ∀ c seen,
  wf c → events c = [] → names_agree (seen ++ ps) →
  entries c = yielded (take (capacity c) (most_recent_first seen)) →
  ∃ c', set_each ps c = Normal c' ∧ capacity c' = capacity c
        ∧ entries c'
          = yielded (take (capacity c) (most_recent_first (seen ++ ps))).
Proof.
  induction ps as [|[k v] ps IH]; intros c seen Hwf Hev Hnames Hent.
  - exists c. by rewrite app_nil_r.
  - assert (Hq : listeners_return c) by (intros ? ?; by rewrite Hev).
    simpl. rewrite (set_returns c k v Hq).
    destruct (IH (after (set k v c)) (seen ++ [(k, v)])) as (c' & -> & Hcap & Hent').
    + by apply wf_set.
    + by rewrite events_set.
    + by rewrite <- (assoc_L (++)).
    + rewrite capacity_set, most_recent_first_snoc.
      apply set_step; try done.
      * apply most_recent_first_NoDup.
      * intros k' Hk' Hn. apply (proj1 (most_recent_first_keys _ _)) in Hk'.
        apply Hnames; [| |done].
        -- rewrite fmap_app. apply elem_of_app. by left.
        -- rewrite fmap_app. apply elem_of_app. right. left.
    + exists c'. rewrite Hcap, capacity_set in *.
      rewrite <- (assoc_L (++)) in Hent'. done.
Qed.

Lemma set_each_returns ps : ∀ c,
  events c = [] → ∃ c', set_each ps c = Normal c' ∧ capacity c' = capacity c.
Proof.
  induction ps as [|[k v] ps IH]; intros c Hev; [exists c; by split|].
  simpl. rewrite set_returns by (intros ? ?; by rewrite Hev).
  destruct (IH (after (set k v c))) as (c' & -> & Hcap); [by rewrite events_set|].
  exists c'. by rewrite Hcap, capacity_set.
Qed.

End From.

Section FromEntries.

Context {Val : Type}.
Variable StringToNumber : string → JsNumber.
Implicit Types (c : Cache Val) (ps M : list (Key * Val)) (k : Key) (v : Val).

Lemma most_recent_first_length ps : length (most_recent_first ps) ≤ length ps.
Proof.
  induction ps as [|[k v] ps IH]; simpl; [done|].
  case_bool_decide; [lia|]. rewrite length_app. simpl. lia.
Qed.

Lemma new_entries (x : JsValue) c :
  new StringToNumber x = Normal c → events c = [] ∧ entries c = [].
Proof. by intros (n & cls & _ & _ & ->)%new_Normal_inv. Qed.


End FromEntries.

Lemma abc_names_agree : names_agree (pairs abc_pairs).
Proof.
  intros k1 k2 H1 H2 Hn. simpl in H1, H2.
  repeat (apply elem_of_cons in H1 as [->|H1]); try (by apply elem_of_nil in H1);
    repeat (apply elem_of_cons in H2 as [->|H2]); try (by apply elem_of_nil in H2);
    done.
Qed.



(** An empty array has the known length 0, and [from] of it alone throws. *)
Lemma from_empty_array :
  from no_strings no_pairs JsUndefined = Throw InvalidCapacityError.
Proof. reflexivity. Qed.

(** * Further properties of the code *)

(** ** Writing and reading back *)

Section Lookup.

Context {Val : Type}.
Implicit Types (c : Cache Val) (chain : list nat) (k : Key) (v : Val).

(** After [set] returned, the key is filed at the head slot. *)
Lemma set_files_at_head c k v :
  result (set k v c) = Normal tt →
  items (after (set k v c)) !! ToPropertyKey k = Some (head (after (set k v c)))
  ∧ V (after (set k v c)) !! head (after (set k v c)) = Some v.
Proof.
  unfold set. destruct (items c !! ToPropertyKey k) as [p|] eqn:Hk; simpl.
  - intros _. destruct (splayOnTop_fields c p) as (_ & _ & -> & _ & _ & _ & ->).
    by rewrite lookup_insert_eq.
  - destruct (_size c <? capacity c); simpl.
    + intros _. by rewrite !lookup_insert_eq.
    + destruct (emit _ _ _); simpl; [|done].
      intros _. by rewrite !lookup_insert_eq.
Qed.

(** X1.  Whatever the cache, once [set(k, v)] or [setpop(k, v)] has returned,
    [has(k)] is true and [peek(k)] and [get(k)] give [v]. *)
Theorem set_then_lookup c k v :
  (result (set k v c) = Normal tt →
   has k (after (set k v c)) = true
   ∧ peek k (after (set k v c)) = Some v
   ∧ (get k (after (set k v c))).1 = Some v)
  ∧ (∀ r, result (setpop k v c) = Normal r →
     has k (after (setpop k v c)) = true
     ∧ peek k (after (setpop k v c)) = Some v
     ∧ (get k (after (setpop k v c))).1 = Some v).
Proof.
  assert (Hset : result (set k v c) = Normal tt →
    has k (after (set k v c)) = true
    ∧ peek k (after (set k v c)) = Some v
    ∧ (get k (after (set k v c))).1 = Some v).
  { intros Hres. destruct (set_files_at_head c k v Hres) as [Hit HV].
    rewrite get_value. unfold has, peek. rewrite Hit.
    split; [|done]. apply bool_decide_eq_true. by eexists. }
  split; [exact Hset|].
  intros r Hr. rewrite (proj1 (setpop_as_set c k v)). apply Hset.
  revert Hr. unfold setpop, set.
  destruct (items c !! ToPropertyKey k); [done|].
  destruct (_size c <? capacity c); [done|]. simpl.
  by destruct (emit _ _ _).
Qed.

(** X2.  [get] returns what [peek] returns, and a second [get] of the same
    key returns the same value and leaves the cache as the first left it. *)
Theorem get_again c k :
  (get k c).1 = peek k c
  ∧ get k (get k c).2 = ((get k c).1, (get k c).2).
Proof.
  split; [apply get_value|].
  unfold get. destruct (items c !! ToPropertyKey k) as [p|] eqn:Hk; simpl.
  - destruct (splayOnTop_fields c p) as (_ & _ & Hit & _ & HV & _ & Hhd).
    rewrite Hit, Hk. simpl.
    assert (splayOnTop p (splayOnTop p c) = splayOnTop p c) as ->; [|done].
    unfold splayOnTop at 1. by rewrite decide_True.
  - by rewrite Hk.
Qed.

(** X3.  [setpop] changes the cache and notifies exactly as [set] does, and
    throws exactly when [set] throws; only the returned report is its own. *)
Theorem setpop_mirrors_set c k v :
  after (setpop k v c) = after (set k v c)
  ∧ emitted (setpop k v c) = emitted (set k v c)
  ∧ (∀ e, result (setpop k v c) = Throw e ↔ result (set k v c) = Throw e).
Proof.
  destruct (setpop_as_set c k v) as [Ha He]. split_and!; try done.
  intros e. unfold setpop, set.
  destruct (items c !! ToPropertyKey k); [simpl; split; discriminate|].
  destruct (_size c <? capacity c); [simpl; split; discriminate|]. simpl.
  destruct (emit _ _ _); [|simpl; split; intros [= ->]; reflexivity].
  destruct (K c !! tail c) as [old|]; [|simpl; split; discriminate].
  destruct (truthy (Some old)); simpl; split; discriminate.
Qed.

(** X4.  The three iterators walk the same chain: [keys()] and [values()]
    yield the first and second components of what [entries()] yields, and
    each yields as many items as [_size] says. *)
Theorem iterators_agree c :
  keys c = (entries c).*1 ∧ values c = (entries c).*2
  ∧ length (entries c) = _size c.
Proof.
  split_and!; [apply keys_entries|apply values_entries|].
  rewrite entries_slots, length_fmap. apply walk_length.
Qed.

End Lookup.

Lemma set_then_lookup_witness :
  result (set (KStr "four") 4 sample) = Normal tt
  ∧ has (KStr "four") (after (set (KStr "four") 4 sample)) = true
  ∧ peek (KStr "four") (after (set (KStr "four") 4 sample)) = Some 4
  ∧ (get (KStr "four") (after (set (KStr "four") 4 sample))).1 = Some 4.
Proof.
  assert (H : result (set (KStr "four") 4 sample) = Normal tt) by reflexivity.
  split; [exact H|].
  exact (proj1 (set_then_lookup sample (KStr "four") 4) H).
Defined.

(** ** The index and the iterators tell the same story *)

Section Index.

Context {Val : Type}.
Implicit Types (c : Cache Val) (chain : list nat) (k : Key) (v : Val).

(** The names under which the slots of the chain are filed. *)
Lemma chain_names c chain :
  repr c chain →
  NoDup ((λ s, property_name (K c !! s)) <$> chain)
  ∧ dom (items c) = list_to_set ((λ s, property_name (K c !! s)) <$> chain).
Proof.
  intros H. split.
  - apply NoDup_fmap_2_strong; [|apply (repr_nodup _ _ H)].
    intros s s' Hs Hs' Hn.
    destruct (repr_cells _ _ H s Hs) as (k1 & _ & HK1 & _ & H1).
    destruct (repr_cells _ _ H s' Hs') as (k2 & _ & HK2 & _ & H2).
    rewrite HK1, HK2 in Hn. simpl in Hn. rewrite Hn in H1. congruence.
  - apply set_eq. intros name.
    rewrite elem_of_dom, elem_of_list_to_set, list_elem_of_fmap. split.
    + intros [s Hs]. destruct (repr_index _ _ H _ _ Hs) as (Hin & k & HK & Hn).
      exists s. by rewrite HK.
    + intros (s & -> & Hs).
      destruct (repr_cells _ _ H s Hs) as (k & _ & HK & _ & Hit).
      rewrite HK. by exists s.
Qed.

Lemma keys_names c chain :
  repr c chain →
  property_name <$> keys c = (λ s, property_name (K c !! s)) <$> chain.
Proof. intros H. by rewrite (keys_repr _ _ H), <- list_fmap_compose. Qed.

(** X5.  In a well-formed cache the key index has exactly [_size] names,
    and that is also the number of entries the iterators yield. *)
Theorem index_size c :
  wf c → size (items c) = _size c ∧ length (entries c) = _size c.
Proof.
  intros [chain H]. destruct (chain_names c chain H) as [Hnd Hdom]. split.
  - rewrite <- size_dom, Hdom, size_list_to_set by done.
    rewrite length_fmap. apply (repr_length _ _ H).
  - rewrite (entries_repr _ _ H), length_fmap. apply (repr_length _ _ H).
Qed.

(** X6.  In a well-formed cache the iterators never yield a key twice, not
    even two keys of the same property name, and they yield no hole. *)
Theorem keys_distinct c :
  wf c →
  NoDup (property_name <$> keys c) ∧ NoDup (keys c)
  ∧ (∀ e, e ∈ entries c → ∃ k v, e = (Some k, Some v)).
Proof.
  intros [chain H]. destruct (chain_names c chain H) as [Hnd _].
  rewrite (keys_names c chain H). split_and!; [done| |].
  - rewrite <- (keys_names c chain H) in Hnd. by apply NoDup_fmap_1 in Hnd.
  - intros e. rewrite (entries_repr _ _ H). intros (s & -> & Hs)%list_elem_of_fmap.
    destruct (repr_cells _ _ H s Hs) as (k & v & HK & HV & _).
    exists k, v. unfold cell. by rewrite HK, HV.
Qed.


End Index.

Lemma sample_wf : wf sample.
Proof. exact (proj1 (reachable_wf no_strings sample sample_reachable)). Qed.

Lemma index_size_witness :
  wf sample ∧ size (items sample) = 3 ∧ length (entries sample) = 3.
Proof.
  split; [exact sample_wf|].
  destruct (index_size sample sample_wf) as [H1 H2].
  split; [exact H1|exact H2].
Defined.

Lemma keys_distinct_witness : wf sample ∧ NoDup (keys sample).
Proof.
  split; [exact sample_wf|].
  exact (proj1 (proj2 (keys_distinct sample sample_wf))).
Defined.


(** ** Reports, failures and survival *)

Section Reports.

Context {Val : Type}.
Implicit Types (c : Cache Val) (chain : list nat) (k : Key) (v : Val).

Lemma tail_entry c chain :
  repr c chain → 0 < _size c →
  ∃ old ov, K c !! tail c = Some old ∧ V c !! tail c = Some ov
            ∧ items c !! ToPropertyKey old = Some (tail c)
            ∧ last (entries c) = Some (Some old, Some ov).
Proof.
  intros H Hpos. destruct (chain_split_last c chain H Hpos) as [init Hchain].
  assert (Ht : tail c ∈ chain) by (rewrite Hchain; apply elem_of_app; right; left).
  destruct (repr_cells _ _ H _ Ht) as (old & ov & HK & HV & Hit).
  exists old, ov. split_and!; try done.
  rewrite (entries_repr _ _ H), Hchain, fmap_last, last_snoc. simpl.
  unfold cell. by rewrite HK, HV.
Qed.

(** X8.  What [setpop] reports on a well-formed cache whose listeners
    return: for a key that is filed, the overwritten report with the value
    [peek] gave; for a new key with room, [null]; for a new key in a full
    cache, the evicted report with the key and value of the last entry when
    that key is truthy, and [null] when it is falsy. *)
Theorem setpop_report c k v :
  wf c → listeners_return c →
  (has k c = true →
   result (setpop k v c) = Normal (Some (mkPopped false k (peek k c))))
  ∧ (has k c = false → _size c < capacity c →
     result (setpop k v c) = Normal None)
  ∧ (has k c = false → _size c = capacity c →
     ∃ old ov, last (entries c) = Some (Some old, Some ov)
       ∧ result (setpop k v c)
         = Normal (if truthy (Some old) then Some (mkPopped true old (Some ov))
                   else None)).
Proof.
  intros [chain H] Hq. split_and!.
  - intros [p Hp]%has_true. rewrite (setpop_present _ _ _ _ Hp).
    unfold peek. by rewrite Hp.
  - intros Hk%has_false Hroom. by rewrite (setpop_room _ _ _ Hk Hroom).
  - intros Hk%has_false Hfull.
    pose proof (capacity_pos _ (repr_storage _ _ H)) as Hcap.
    destruct (tail_entry c chain H) as (old & ov & HK & HV & _ & Hlast); [lia|].
    exists old, ov. split; [done|].
    rewrite (setpop_full _ _ _ Hk) by lia. rewrite Hq. simpl. by rewrite HK, HV.
Qed.

(** X9.  When [set] has to evict and a listener throws, the cache is left
    out of step with itself: [entries()] yields what it yielded before the
    call, the evicted entry included, while [has] denies that entry's key;
    the cache no longer satisfies its invariant. *)
Theorem failed_set_leaves_stale_entry c k v (e : Error) :
  wf c → _size c = capacity c → has k c = false →
  result (set k v c) = Throw e →
  entries (after (set k v c)) = entries c
  ∧ (∃ old ov, last (entries c) = Some (Some old, Some ov)
       ∧ has old c = true ∧ has old (after (set k v c)) = false)
  ∧ ¬ wf (after (set k v c)).
Proof.
  intros [chain H] Hfull Hk%has_false Hres.
  pose proof (capacity_pos _ (repr_storage _ _ H)) as Hcap.
  assert (Hnf : ¬ _size c < capacity c) by lia.
  rewrite (set_full _ _ _ Hk Hnf) in Hres |- *.
  destruct (emit _ _ _); [done|]. simpl. clear Hres.
  destruct (tail_entry c chain H) as (old & ov & HK & HV & Hit & Hlast); [lia|].
  assert (Hgone : items (evict_tail c) !! ToPropertyKey old = None).
  { simpl. rewrite HK. apply lookup_delete_eq. }
  split_and!.
  - done.
  - exists old, ov. split_and!; [done| |by apply has_false].
    apply has_true. by exists (tail c).
  - intros [chain' H'].
    assert (Ht : tail c ∈ chain').
    { apply (repr_slots _ _ H'). simpl.
      apply (repr_slots _ _ H). destruct (chain_split_last c chain H) as [init ->]; [lia|].
      apply elem_of_app. right. left. }
    destruct (repr_cells _ _ H' _ Ht) as (k' & _ & HK' & _ & Hit').
    simpl in HK'. rewrite HK in HK'. injection HK' as <-. congruence.
Qed.

(** X10.  In a well-formed cache of capacity 2 or more, the entry at the
    head survives the next [set], whatever key that sets and whether or not a
    listener throws; so a key just written with [set], or just read with a
    [get] that hit, is never the one the next [set] evicts. *)
Theorem recent_key_survives c k v k' v' :
  wf c → 2 ≤ capacity c →
  (items c !! ToPropertyKey k = Some (head c) →
   has k (after (set k' v' c)) = true)
  ∧ (result (set k v c) = Normal tt →
     has k (after (set k' v' (after (set k v c)))) = true)
  ∧ (has k c = true → has k (after (set k' v' (get k c).2)) = true).
Proof.
  intros Hwf Hcap.
  assert (Hhead : ∀ c0 : Cache Val, wf c0 → capacity c0 = capacity c →
            items c0 !! ToPropertyKey k = Some (head c0) →
            has k (after (set k' v' c0)) = true).
  { clear Hwf. intros c0 [chain H] Hc Hk. apply has_true.
    destruct (items c0 !! ToPropertyKey k') as [p|] eqn:Hk'.
    - rewrite (set_present _ _ _ _ Hk'). simpl.
      destruct (splayOnTop_fields c0 p) as (_ & _ & -> & _). by eexists.
    - assert (Hne : ToPropertyKey k' ≠ ToPropertyKey k) by congruence.
      destruct (decide (_size c0 < capacity c0)) as [Hroom|Hfull].
      + rewrite (set_room _ _ _ Hk' Hroom). simpl.
        rewrite lookup_insert_ne by done. by eexists.
      + pose proof (repr_size _ _ H) as Hsz.
        destruct (tail_entry c0 chain H) as (old & ov & HK & _ & Hit & _); [lia|].
        assert (Hold : ToPropertyKey old ≠ ToPropertyKey k).
        { intros Hn. rewrite Hn, Hk in Hit. injection Hit as Hht.
          pose proof (repr_head _ _ H) as Hh. pose proof (repr_tail _ _ H) as Ht.
          pose proof (repr_length _ _ H) as Hlen. pose proof (repr_nodup _ _ H) as Hnd.
          destruct chain as [|a [|b rest]]; simpl in Hlen; [lia|lia|].
          simpl in Hh. rewrite last_cons_cons in Ht.
          destruct (last (b :: rest)) as [t|] eqn:Et; [|by apply last_None in Et].
          simpl in Ht. apply last_Some_elem_of in Et.
          apply NoDup_cons in Hnd as [Hnd _]. apply Hnd. congruence. }
        rewrite (set_full _ _ _ Hk' Hfull).
        destruct (emit _ _ _); simpl; rewrite HK; simpl.
        * rewrite lookup_insert_ne by done. rewrite lookup_delete_ne by done.
          by eexists.
        * rewrite lookup_delete_ne by done. by eexists. }
  split_and!.
  - by apply Hhead.
  - intros Hres. destruct Hwf as [chain H]. apply Hhead.
    + eexists. by apply repr_set.
    + apply capacity_set.
    + apply (set_files_at_head c k v Hres).
  - intros [p Hp]%has_true. destruct Hwf as [chain H]. apply Hhead.
    + eexists. by apply repr_get.
    + rewrite get_state, Hp. by destruct (splayOnTop_fields c p) as (-> & _).
    + rewrite get_state, Hp.
      by destruct (splayOnTop_fields c p) as (_ & _ & -> & _ & _ & _ & ->).
Qed.

End Reports.

Lemma setpop_report_witness :
  wf sample ∧ listeners_return sample ∧ has (KStr "four") sample = false
  ∧ _size sample = capacity sample
  ∧ ∃ old ov, last (entries sample) = Some (Some old, Some ov)
      ∧ result (setpop (KStr "four") 4 sample)
        = Normal (if truthy (Some old) then Some (mkPopped true old (Some ov))
                  else None).
Proof.
  assert (Hq : listeners_return sample) by (intros ? ?; reflexivity).
  split; [exact sample_wf|]. split; [exact Hq|].
  split; [reflexivity|]. split; [reflexivity|].
  exact (proj2 (proj2 (setpop_report sample (KStr "four") 4 sample_wf Hq))
           eq_refl eq_refl).
Defined.

Lemma failed_set_leaves_stale_entry_witness :
  wf loud ∧ _size loud = capacity loud ∧ has (KStr "two") loud = false
  ∧ result (set (KStr "two") 2 loud) = Throw (HandlerError "boom")
  ∧ entries (after (set (KStr "two") 2 loud)) = entries loud
  ∧ ¬ wf (after (set (KStr "two") 2 loud)).
Proof.
  assert (Hres : result (set (KStr "two") 2 loud) = Throw (HandlerError "boom"))
    by reflexivity.
  split; [exact loud_wf|]. split; [reflexivity|]. split; [reflexivity|].
  split; [exact Hres|].
  destruct (failed_set_leaves_stale_entry loud (KStr "two") 2 _ loud_wf eq_refl eq_refl Hres)
    as (Hent & _ & Hnwf).
  split; [exact Hent|exact Hnwf].
Defined.

Lemma recent_key_survives_witness :
  wf sample ∧ 2 ≤ capacity sample
  ∧ result (set (KStr "four") 4 sample) = Normal tt
  ∧ has (KStr "four")
      (after (set (KStr "five") 5 (after (set (KStr "four") 4 sample)))) = true.
Proof.
  assert (Hcap : 2 ≤ capacity sample) by (vm_compute; lia).
  assert (Hres : result (set (KStr "four") 4 sample) = Normal tt) by reflexivity.
  split; [exact sample_wf|]. split; [exact Hcap|]. split; [exact Hres|].
  exact (proj1 (proj2 (recent_key_survives sample (KStr "four") 4 (KStr "five") 5
                         sample_wf Hcap)) Hres).
Defined.

(** ** [inspect] *)

Section Inspect.

Context {Val : Type}.
Implicit Types (c : Cache Val) (m l : list (option Key * option Val)).

Lemma Map_set_new (k : option Key) (v : option Val) m :
  k ∉ m.*1 → Map_set k v m = m ++ [(k, v)].
Proof.
  induction m as [|[k' v'] m IH]; intros Hk; [done|]. simpl in *.
  rewrite decide_False by (intros ->; apply Hk; left).
  rewrite IH; [done|]. intros ?. apply Hk. by right.
Qed.

Lemma fill_distinct l : ∀ m,
  NoDup (m ++ l).*1 →
  foldl (λ proxy step, Map_set step.1 step.2 proxy) m l = m ++ l.
Proof.
  induction l as [|[k v] l IH]; intros m Hnd; simpl.
  - by rewrite app_nil_r.
  - rewrite Map_set_new.
    + rewrite IH; rewrite <- (assoc_L (++)); done.
    + rewrite fmap_app in Hnd. apply NoDup_app in Hnd as (_ & Hdis & _).
      intros Hin. apply (Hdis _ Hin). left.
Qed.

(** X11.  On a well-formed cache [inspect()] loses nothing and reorders
    nothing: the [Map] it builds lists exactly the entries that [entries()]
    yields, most recently used first. *)
Theorem inspect_entries c : wf c → inspect c = entries c.
Proof.
  intros Hwf. unfold inspect.
  rewrite (fill_distinct (entries c) []); [done|]. simpl.
  rewrite <- keys_entries.
  destruct Hwf as [chain H]. destruct (chain_names c chain H) as [Hnd _].
  rewrite <- (keys_names c chain H) in Hnd. by apply NoDup_fmap_1 in Hnd.
Qed.

(** Without distinct keys the [Map] would be shorter: a later entry of a
    key overwrites the earlier one in place. *)
Lemma Map_set_overwrites (k : option Key) (v v' : option Val) m :
  Map_set k v' (Map_set k v m) = Map_set k v' m.
Proof.
  induction m as [|[k0 v0] m IH]; simpl.
  - by rewrite decide_True.
  - destruct (decide (k0 = k)) as [->|Hne]; simpl.
    + by rewrite decide_True.
    + rewrite decide_False by done. by rewrite IH.
Qed.

End Inspect.

Lemma inspect_entries_witness :
  wf sample
  ∧ inspect sample
    = [(Some (KStr "three"), Some 3); (Some (KStr "two"), Some 2);
       (Some (KStr "one"), Some 1)].
Proof.
  split; [exact sample_wf|].
  rewrite (inspect_entries sample sample_wf). vm_compute. reflexivity.
Defined.

Lemma new_beyond_range_witness :
  Qeq 4294967296 (inject_Z 4294967296) ∧ (4294967295 < 4294967296)%Z
  ∧ new (Val:=nat) no_strings (JsNum (Finite 4294967296)) = Throw RangeError
  ∧ new (Val:=nat) no_strings (JsNum (Finite 4294967297))
    = Throw CapacityUnsupportedError.
Proof.
  assert (H1 : (4294967295 < 4294967296)%Z) by lia.
  assert (H2 : (4294967295 < 4294967297)%Z) by lia.
  split; [reflexivity|]. split; [exact H1|].
  split.
  - exact (new_beyond_range (Val:=nat) no_strings 4294967296%Q 4294967296%Z
             (Qeq_refl _) H1).
  - exact (new_beyond_range (Val:=nat) no_strings 4294967297%Q 4294967297%Z
             (Qeq_refl _) H2).
Defined.

(** ** [clear] gives a cache that behaves as a new one *)

Section Alike.

Context {Val : Type}.
Variable StringToNumber : string → JsNumber.
Implicit Types (c : Cache Val) (chain : list nat) (k : Key) (v : Val).

Lemma alike_fields c1 c2 :
  alike c1 c2 → _size c1 = _size c2 ∧ head c1 = head c2 ∧ tail c1 = tail c2.
Proof.
  intros (_ & _ & _ & chain & H1 & H2 & _). split_and!.
  - by rewrite <- (repr_length _ _ H1), <- (repr_length _ _ H2).
  - by rewrite (repr_head _ _ H1), (repr_head _ _ H2).
  - by rewrite (repr_tail _ _ H1), (repr_tail _ _ H2).
Qed.

Lemma set_chain_elem_of c chain k (s : nat) :
  repr c chain → s ∈ set_chain c chain k →
  s ∈ chain ∨ (items c !! ToPropertyKey k = None
               ∧ s = if decide (_size c < capacity c) then _size c else tail c).
Proof.
  intros H. unfold set_chain.
  destruct (items c !! ToPropertyKey k) as [p|] eqn:Hk.
  - intros [->|[_ Hs]%list_elem_of_filter]%elem_of_cons; [|by left].
    left. by eapply repr_index_slot.
  - case_decide.
    + intros [->|Hs]%elem_of_cons; [by right|by left].
    + intros [->|Hs]%elem_of_cons; [by right|]. left.
      destruct chain as [|x chain _] using rev_ind; [done|].
      rewrite removelast_last in Hs. apply elem_of_app. by left.
Qed.

Lemma alike_set c1 c2 k v :
  alike c1 c2 → listeners_return c1 →
  result (set k v c1) = result (set k v c2)
  ∧ emitted (set k v c1) = emitted (set k v c2)
  ∧ alike (after (set k v c1)) (after (set k v c2)).
Proof.
  intros Hal Hq1. destruct (alike_fields c1 c2 Hal) as (Hsz & Hhd & Htl).
  destruct Hal as (Hcap & Hit & Hev & chain & H1 & H2 & Hcell).
  assert (Hq2 : listeners_return c2) by (intros ? ?; rewrite <- Hev; apply Hq1).
  pose proof (set_returns c1 k v Hq1) as Hres1.
  pose proof (set_returns c2 k v Hq2) as Hres2.
  pose proof (repr_set c1 chain k v H1 Hres1) as H1'.
  pose proof (repr_set c2 chain k v H2 Hres2) as H2'.
  assert (Hch : set_chain c2 chain k = set_chain c1 chain k).
  { unfold set_chain. by rewrite Hit, Hsz, Hcap, Htl. }
  rewrite Hch in H2'.
  assert (Htail : 0 < _size c1 → cell c1 (tail c1) = cell c2 (tail c1)).
  { intros Hpos. apply Hcell.
    destruct (chain_split_last c1 chain H1 Hpos) as [init ->].
    apply elem_of_app. right. left. }
  pose proof (capacity_pos _ (repr_storage _ _ H1)) as Hpos.
  assert (Hrest : emitted (set k v c1) = emitted (set k v c2)
            ∧ items (after (set k v c1)) = items (after (set k v c2))
            ∧ ∀ s, s ∈ set_chain c1 chain k →
                   cell (after (set k v c1)) s = cell (after (set k v c2)) s).
  { destruct (items c1 !! ToPropertyKey k) as [p|] eqn:Hk.
    - assert (Hk2 : items c2 !! ToPropertyKey k = Some p) by by rewrite <- Hit.
      rewrite (set_present _ _ _ _ Hk), (set_present _ _ _ _ Hk2). simpl.
      destruct (splayOnTop_fields c1 p) as (_ & _ & -> & HK1 & _).
      destruct (splayOnTop_fields c2 p) as (_ & _ & -> & HK2 & _).
      split_and!; try done.
      intros s Hs. apply (set_chain_elem_of c1 chain k s H1) in Hs as [Hs|[? _]];
        [|congruence].
      specialize (Hcell s Hs). unfold cell in *. simpl. rewrite HK1, HK2.
      injection Hcell as HKs HVs. f_equal; [done|].
      destruct (decide (s = p)) as [->|Hne].
      + by rewrite !lookup_insert_eq.
      + by rewrite !lookup_insert_ne.
    - assert (Hk2 : items c2 !! ToPropertyKey k = None) by by rewrite <- Hit.
      destruct (decide (_size c1 < capacity c1)) as [Hroom|Hfull].
      + assert (Hroom2 : _size c2 < capacity c2) by lia.
        rewrite (set_room _ _ _ Hk Hroom), (set_room _ _ _ Hk2 Hroom2). simpl.
        rewrite Hit, Hsz. split_and!; try done.
        intros s Hs. apply (set_chain_elem_of c1 chain k s H1) in Hs as [Hs|[_ ->]].
        * specialize (Hcell s Hs). unfold cell in *. simpl.
          apply (repr_slots _ _ H1) in Hs.
          rewrite !lookup_insert_ne by lia. done.
        * rewrite decide_True by done. unfold cell. simpl. rewrite <- Hsz.
          by rewrite !lookup_insert_eq.
      + assert (Hfull2 : ¬ _size c2 < capacity c2) by lia.
        pose proof (repr_size _ _ H1).
        specialize (Htail ltac:(lia)). unfold cell in Htail.
        injection Htail as HKt HVt.
        rewrite (set_full _ _ _ Hk Hfull), (set_full _ _ _ Hk2 Hfull2).
        rewrite (Hq1 (K c1 !! tail c1) (V c1 !! tail c1)).
        rewrite (Hq2 (K c2 !! tail c2) (V c2 !! tail c2)).
        simpl. unfold cell. rewrite <- !Htl, <- HKt, <- HVt, Hit.
        split_and!; try done.
        intros s Hs. apply (set_chain_elem_of c1 chain k s H1) in Hs as [Hs|[_ ->]].
        * specialize (Hcell s Hs). unfold cell in Hcell. injection Hcell as HKs HVs.
          simpl. destruct (decide (s = tail c1)) as [->|Hne].
          -- by rewrite !lookup_insert_eq.
          -- rewrite !lookup_insert_ne by done. congruence.
        * rewrite decide_False by done. simpl. by rewrite !lookup_insert_eq. }
  destruct Hrest as (Hem & Hit' & Hcell').
  split_and!; [by rewrite Hres1, Hres2|done|].
  split_and!; [by rewrite !capacity_set|done|by rewrite !events_set|].
  by exists (set_chain c1 chain k).
Qed.

Lemma alike_lookup c1 c2 k (p : nat) :
  alike c1 c2 → items c1 !! ToPropertyKey k = Some p →
  items c2 !! ToPropertyKey k = Some p ∧ cell c1 p = cell c2 p.
Proof.
  intros (_ & Hit & _ & chain & H1 & _ & Hcell) Hp.
  split; [by rewrite <- Hit|]. apply Hcell. exact (repr_index_slot c1 chain _ p H1 Hp).
Qed.

Lemma alike_entries c1 c2 : alike c1 c2 → entries c1 = entries c2.
Proof.
  intros (_ & _ & _ & chain & H1 & H2 & Hcell).
  rewrite (entries_repr _ _ H1), (entries_repr _ _ H2).
  by apply fmap_ext_elem_of.
Qed.

Lemma alike_get c1 c2 k :
  alike c1 c2 → (get k c1).1 = (get k c2).1 ∧ alike (get k c1).2 (get k c2).2.
Proof.
  intros Hal. rewrite !get_value, !get_state. unfold peek.
  destruct (items c1 !! ToPropertyKey k) as [p|] eqn:Hp.
  - destruct (alike_lookup c1 c2 k p Hal Hp) as [-> [= _ HV]]. split; [done|].
    destruct Hal as (Hcap & Hit & Hev & chain & H1 & H2 & Hcell).
    assert (Hin : p ∈ chain) by exact (repr_index_slot c1 chain _ p H1 Hp).
    destruct (splayOnTop_fields c1 p) as (Hc1 & _ & Hi1 & _ & _ & He1 & _).
    destruct (splayOnTop_fields c2 p) as (Hc2 & _ & Hi2 & _ & _ & He2 & _).
    split_and!; [congruence|congruence|congruence|].
    exists (p :: filter (λ s, s ≠ p) chain).
    split_and!; [by apply repr_splayOnTop|by apply repr_splayOnTop|].
    intros s Hs. rewrite !cell_splayOnTop. apply Hcell.
    apply elem_of_cons in Hs as [->|[_ Hs]%list_elem_of_filter]; done.
  - destruct Hal as (Hcap & Hit & Hev & Hrest). rewrite <- Hit, Hp.
    split; [done|]. by split_and!.
Qed.

Lemma alike_setpop_result c1 c2 k v :
  alike c1 c2 → result (setpop k v c1) = result (setpop k v c2).
Proof.
  intros Hal. destruct (alike_fields c1 c2 Hal) as (Hsz & Hhd & Htl).
  destruct (items c1 !! ToPropertyKey k) as [p|] eqn:Hk.
  - destruct (alike_lookup c1 c2 k p Hal Hk) as [Hk2 [= _ HV]].
    by rewrite (setpop_present _ _ _ _ Hk), (setpop_present _ _ _ _ Hk2), HV.
  - destruct Hal as (Hcap & Hit & Hev & chain & H1 & H2 & Hcell).
    assert (Hk2 : items c2 !! ToPropertyKey k = None) by by rewrite <- Hit.
    destruct (decide (_size c1 < capacity c1)) as [Hroom|Hfull].
    + assert (Hroom2 : _size c2 < capacity c2) by lia.
      by rewrite (setpop_room _ _ _ Hk Hroom), (setpop_room _ _ _ Hk2 Hroom2).
    + assert (Hfull2 : ¬ _size c2 < capacity c2) by lia.
      pose proof (repr_size _ _ H1).
      pose proof (capacity_pos _ (repr_storage _ _ H1)).
      destruct (chain_split_last c1 chain H1) as [init Hchain]; [lia|].
      assert (Ht : cell c1 (tail c1) = cell c2 (tail c1)).
      { apply Hcell. rewrite Hchain. apply elem_of_app. right. left. }
      injection Ht as HKt HVt.
      rewrite (setpop_full _ _ _ Hk Hfull), (setpop_full _ _ _ Hk2 Hfull2).
      rewrite <- Htl, <- HKt, <- HVt, <- Hev. by destruct (emit _ _ _).
Qed.

(** Two caches alike answer a call alike and are alike after it. *)
Lemma alike_call c1 c2 (op : Call Val) :
  alike c1 c2 → listeners_return c1 →
  answer op c1 = answer op c2 ∧ alike (call op c1) (call op c2).
Proof.
  intros Hal Hq. destruct op as [k v|k v|k|k|k| | | |]; simpl.
  - destruct (alike_set c1 c2 k v Hal Hq) as (-> & -> & ?). done.
  - destruct (alike_set c1 c2 k v Hal Hq) as (_ & He & Ha).
    rewrite !(proj1 (setpop_as_set _ _ _)), !(proj2 (setpop_as_set _ _ _)), He.
    by rewrite (alike_setpop_result c1 c2 k v Hal).
  - destruct (alike_get c1 c2 k Hal) as [-> ?]. done.
  - split; [|done]. rewrite <- !get_value. by destruct (alike_get c1 c2 k Hal) as [-> _].
  - split; [|done]. unfold has. by destruct Hal as (_ & -> & _).
  - split; [done|]. destruct Hal as (Hcap & Hit & Hev & chain & H1 & H2 & _).
    split_and!; try done. exists []. split_and!; [by eapply repr_clear..|].
    by intros s ?%elem_of_nil.
  - split; [|done]. by rewrite !keys_entries, (alike_entries c1 c2 Hal).
  - split; [|done]. by rewrite !values_entries, (alike_entries c1 c2 Hal).
  - split; [|done]. by rewrite (alike_entries c1 c2 Hal).
Qed.

Lemma alike_calls (ops : list (Call Val)) : ∀ c1 c2,
  alike c1 c2 → events c1 = [] → alike (calls ops c1) (calls ops c2).
Proof.
  unfold calls. induction ops as [|op ops IH]; intros c1 c2 Hal Hev; simpl; [done|].
  apply IH.
  - apply alike_call; [done|]. intros ? ?. by rewrite Hev.
  - by rewrite events_call.
Qed.

Lemma capacity_calls (ops : list (Call Val)) c :
  capacity (calls ops c) = capacity c.
Proof.
  unfold calls. revert c. induction ops as [|op ops IH]; intros c; simpl; [done|].
  by rewrite IH, capacity_call.
Qed.

Lemma events_calls (ops : list (Call Val)) c : events (calls ops c) = events c.
Proof.
  unfold calls. revert c. induction ops as [|op ops IH]; intros c; simpl; [done|].
  by rewrite IH, events_call.
Qed.


End Alike.


(** ** The splay, and the invariant with listeners *)

Section Engine.

Context {Val : Type}.
Implicit Types (c : Cache Val) (chain : list nat) (k : Key) (v : Val).

(** X14.  [splayOnTop], which is a public method, called on a well-formed
    cache with a slot of the chain: the slot becomes the head, the other
    slots keep their order, no key, value, index entry or size changes, and
    the cache stays well-formed. *)
Theorem splayOnTop_promotes c (p : nat) :
  wf c → p ∈ slots c →
  wf (splayOnTop p c)
  ∧ slots (splayOnTop p c) = p :: filter (λ s, s ≠ p) (slots c)
  ∧ entries (splayOnTop p c)
    = cell c p :: filter (λ e, e.1 ≠ K c !! p) (entries c)
  ∧ items (splayOnTop p c) = items c ∧ _size (splayOnTop p c) = _size c.
Proof.
  intros [chain H] Hp. rewrite (repr_slots_eq _ _ H) in Hp |- *.
  pose proof (repr_splayOnTop c chain p H Hp) as H'.
  destruct (splayOnTop_fields c p) as (_ & Hsz & Hit & _).
  split_and!; try done.
  - by eexists.
  - apply (repr_slots_eq _ _ H').
  - rewrite (entries_repr _ _ H'), (entries_repr _ _ H), fmap_cons.
    f_equal; [apply cell_splayOnTop|].
    rewrite (fmap_ext_elem_of (cell (splayOnTop p c)) (cell c))
      by (intros; apply cell_splayOnTop).
    symmetry. apply filter_fmap_elem_of. intros s Hs. split.
    + intros Hne ->. done.
    + intros Hne Heq. apply Hne.
      destruct (repr_cells _ _ H s Hs) as (k1 & _ & HK1 & _ & H1).
      destruct (repr_cells _ _ H p Hp) as (k2 & _ & HK2 & _ & H2).
      unfold cell in Heq. simpl in Heq. rewrite HK1, HK2 in Heq.
      injection Heq as ->. congruence.
Qed.


End Engine.

Lemma splayOnTop_promotes_witness :
  wf sample ∧ 0 ∈ slots sample
  ∧ slots (splayOnTop 0 sample) = 0 :: filter (λ s, s ≠ 0) (slots sample).
Proof.
  assert (Hin : 0 ∈ slots sample).
  { replace (slots sample) with [2; 1; 0] by (vm_compute; reflexivity).
    do 2 right. left. }
  split; [exact sample_wf|]. split; [exact Hin|].
  exact (proj1 (proj2 (splayOnTop_promotes sample 0 sample_wf Hin))).
Defined.

